(** * wechat/client: the access-token cache and the JSON request helpers

    A shallow embedding of [client/client.go] (package [client]) and of the
    parts of the credential cache that the package's constructor starts.

    The file has two layers.
    - The request helpers [postJSON] and [getJSON] and the constructor
      [NewClient] are sequential Go functions; they are embedded as
      state-passing functions, with [defer] as a combinator and an event
      log for the calls they make to their collaborators.
    - The goroutine [tokenService], the readers of the token and the
      callers that reschedule the refresh run concurrently; they are
      embedded as a labelled step relation over one shared system state. *)

From stdpp Require Import base option list gmap strings.
From Stdlib Require Import ZArith Lia.

Local Open Scope Z_scope.
Local Open Scope string_scope.
Local Open Scope list_scope.

(** ** Go values *)

(** A Go [error] value, identified by its message; the nil error is [None]. *)
Definition error : Type := string.

(** [time.Duration]: a signed count of nanoseconds. *)
Definition Duration : Type := Z.

(** [fmt.Errorf("http.Status: %s", status)]. *)
Definition fmt_Errorf_status (status : string) : error :=
  String.append "http.Status: " status.

Module http.

Definition StatusOK : Z := 200.

(** The fields of [http.Response] the package reads. *)
Record Response : Type := mkResponse {
  StatusCode : Z;
  Status : string;
  Body : string }.

(** [http.Client] as the package uses it: [Post url contentType body]
    and [Get url] either fail with an error or produce a response. *)
Record Client : Type := mkClient {
  Post : string → string → string → Response + error;
  Get : string → Response + error }.

End http.

(** The result of the external [Authenticate] collaborator: a Go triple
    [(token, validFor, err)]. *)
Record AuthResult : Type := mkAuth {
  auth_token : string;
  auth_validFor : Duration;
  auth_err : option error }.

(** The collaborators the package is linked against. *)
Class Collaborators : Type := {
  (** the values handed to [encoding/json] *)
  Value : Type;
  (** [json.NewEncoder(buf).Encode(v)]: the bytes written, or an error *)
  json_Encode : Value → string + error;
  (** [json.NewDecoder(body).Decode(&v)]: the value stored, or an error *)
  json_Decode : string → Value + error;
  (** [http.DefaultClient] *)
  http_DefaultClient : http.Client;
  (** the remote authority: the answer to the [n]-th fetch for
      [(appid, appsecret)] *)
  Authenticate : string → string → nat → AuthResult;
  (** the interval the refresh loop derives from a reported validity *)
  interval_of_validity : Duration → Duration;
  (** the interval the refresh loop falls back to after a failed fetch *)
  fallback_interval : Duration;
  (** the interval [tokenService] arms its timer with when it starts *)
  initial_interval : Duration }.

(** ** The [Client] structure *)

(** [sync.RWMutex]: one writer or any number of readers. *)
Record RWMutex : Type := mkRWMutex {
  writer : bool;
  readerCount : nat }.

(** The anonymous struct [currentToken]. *)
Record CurrentToken : Type := mkCurrentToken {
  rwmutex : RWMutex;
  token : string;
  err : option error }.

(** A [chan time.Duration] with its capacity and its queued values;
    [make(chan time.Duration)] has capacity [0]. *)
Record Chan : Type := mkChan {
  chan_cap : nat;
  chan_buf : list Duration }.

Definition make_chan : Chan := mkChan 0 [].

(** [*bytes.Buffer] values are addresses into a heap of buffer contents. *)
Definition BufferRef : Type := nat.

(** Modelled from the spec: [pool.Pool] of [github.com/chanxuehong/util/pool]
    is not part of this package; the spec (4.2) describes it as a
    free list of idle buffers bounded by a capacity. *)
Record Pool : Type := mkPool {
  pool_cap : nat;
  pool_idle : list BufferRef }.

(** [pool.New(newBuffer, capacity)]: nothing is allocated up front. *)
Definition pool_New (capacity : nat) : Pool := mkPool capacity [].

Record Client : Type := mkClientRec {
  appid : string;
  appsecret : string;
  currentToken : CurrentToken;
  resetRefreshTokenTickChan : Chan;
  bufferPool : Pool;
  httpClient : http.Client }.

Definition set_bufferPool (p : Pool) (c : Client) : Client :=
  mkClientRec (appid c) (appsecret c) (currentToken c)
    (resetRefreshTokenTickChan c) p (httpClient c).

Definition set_currentToken (t : CurrentToken) (c : Client) : Client :=
  mkClientRec (appid c) (appsecret c) t
    (resetRefreshTokenTickChan c) (bufferPool c) (httpClient c).

(** ** The request helpers *)

(** What a request helper does to the outside, in order. *)
Inductive Event : Type :=
  | EvGetBuffer (b : BufferRef)
  | EvPutBuffer (b : BufferRef)
  | EvEncode
  | EvPost (url contentType body : string)
  | EvGet (url : string)
  | EvBodyClose
  | EvDecode.

Arguments EvGetBuffer b%_nat.
Arguments EvPutBuffer b%_nat.

Global Instance Event_eq_dec : EqDecision Event.
Proof. solve_decision. Defined.

(** The memory a request helper runs in: the client it is a method of,
    the heap of buffers, and the log of its calls. *)
Record Mem : Type := mkMem {
  client : Client;
  bufs : gmap BufferRef string;
  next_buf : BufferRef;
  log : list Event }.

(** Go statements that read and write [Mem]. *)
Definition M (A : Type) : Type := Mem → A * Mem.

Global Instance M_ret : MRet M := λ A a m, (a, m).
Global Instance M_bind : MBind M :=
  λ A B f ma m, let '(a, m1) := ma m in f a m1.

Definition emit (e : Event) : M unit :=
  λ m, (tt, mkMem (client m) (bufs m) (next_buf m) (log m ++ [e])).

(** [defer cleanup] followed by the rest of the function body: the body
    runs to whichever [return] it takes, then [cleanup] runs, and the
    function returns what the body returned. *)
Definition defer {A : Type} (cleanup : M unit) (body : M A) : M A :=
  λ m, let '(a, m1) := body m in let '(_, m2) := cleanup m1 in (a, m2).

Section Helpers.
Context `{Collaborators}.

(** Modelled from the spec: [Client.getBufferFromPool] is not in the
    source file; the spec's [Acquire] returns an idle buffer if one
    exists and otherwise constructs a new, empty one. *)
Definition getBufferFromPool : M BufferRef := λ m,
  let p := bufferPool (client m) in
  match pool_idle p with
  | b :: rest =>
      (b, mkMem (set_bufferPool (mkPool (pool_cap p) rest) (client m))
                (bufs m) (next_buf m) (log m ++ [EvGetBuffer b]))
  | [] =>
      let b := next_buf m in
      (b, mkMem (client m) (<[b := ""]> (bufs m)) (S b)
                (log m ++ [EvGetBuffer b]))
  end.

(** Modelled from the spec: [Client.putBufferToPool] is not in the
    source file; the spec's [Release] resets the buffer to empty and
    returns it to the idle set if the idle set has room under the
    capacity, and discards it otherwise. *)
Definition putBufferToPool (b : BufferRef) : M unit := λ m,
  let p := bufferPool (client m) in
  let p' := if bool_decide (length (pool_idle p) < pool_cap p)%nat
            then mkPool (pool_cap p) (pool_idle p ++ [b]) else p in
  (tt, mkMem (set_bufferPool p' (client m))
             (<[b := ""]> (bufs m)) (next_buf m) (log m ++ [EvPutBuffer b])).

(** [json.NewEncoder(buf).Encode(v)]: appends the encoding to [buf]. *)
Definition Encoder_Encode (buf : BufferRef) (v : Value) : M (option error) :=
  λ m,
  match json_Encode v with
  | inl bytes =>
      (None, mkMem (client m) (alter (λ s, String.append s bytes) buf (bufs m))
                   (next_buf m) (log m ++ [EvEncode]))
  | inr e =>
      (Some e, mkMem (client m) (bufs m) (next_buf m) (log m ++ [EvEncode]))
  end.

(** [c.httpClient.Post(url, contentType, buf)]: the body sent is the
    content of [buf]. *)
Definition httpClient_Post (url contentType : string) (buf : BufferRef)
  : M (http.Response + error) := λ m,
  let body := default "" (bufs m !! buf) in
  (http.Post (httpClient (client m)) url contentType body,
   mkMem (client m) (bufs m) (next_buf m)
         (log m ++ [EvPost url contentType body])).

(** [c.httpClient.Get(url)]. *)
Definition httpClient_Get (url : string) : M (http.Response + error) :=
  λ m,
  (http.Get (httpClient (client m)) url,
   mkMem (client m) (bufs m) (next_buf m) (log m ++ [EvGet url])).

(** [json.NewDecoder(resp.Body).Decode(response)], for the one
    destination the call is made with: what it decodes is taken as a
    function of the body, and what a failed decoding may already have
    written into the destination is left out. *)
Definition Decoder_Decode (body : string) : M (Value + error) :=
  _ ← emit EvDecode; mret (json_Decode body).

(** The common tail of both helpers, after a response has arrived:
    [defer resp.Body.Close()], the status test and the decoding. The
    result is the returned [err] and the value stored through
    [response] ([None] when nothing was stored). *)
Definition handle_response (resp : http.Response)
  : M (option error * option Value) :=
  defer (emit EvBodyClose)
    (if bool_decide (http.StatusCode resp ≠ http.StatusOK)
     then mret (Some (fmt_Errorf_status (http.Status resp)), None)
     else
       r ← Decoder_Decode (http.Body resp);
       match r with
       | inr e => mret (Some e, None)
       | inl v => mret (None, Some v)
       end).

(** Lines 68 to 86 of [postJSON]: what runs between taking the buffer
    and the deferred release. *)
Definition rest_of_postJSON (buf : BufferRef) (_url : string) (request : Value)
  : M (option error * option Value) :=
  e ← Encoder_Encode buf request;
  match e with
  | Some e => mret (Some e, None)
  | None =>
      r ← httpClient_Post _url "application/json; charset=utf-8" buf;
      match r with
      | inr e => mret (Some e, None)
      | inl resp => handle_response resp
      end
  end.

(** [func (c *Client) postJSON(_url, request, response) (err error)]:
    [buf := c.getBufferFromPool()], [defer c.putBufferToPool(buf)], and
    the rest. *)
Definition postJSON (_url : string) (request : Value)
  : M (option error * option Value) :=
  buf ← getBufferFromPool;
  defer (putBufferToPool buf) (rest_of_postJSON buf _url request).

(** [func (c *Client) getJSON(_url, response) (err error)]. *)
Definition getJSON (_url : string) : M (option error * option Value) :=
  r ← httpClient_Get _url;
  match r with
  | inr e => mret (Some e, None)
  | inl resp => handle_response resp
  end.

End Helpers.

(** ** The credential cache *)

(** Where the goroutine [tokenService] is. *)
Inductive write_pc : Type :=
  | WaitLock      (* has called [Lock], waits for the readers to leave *)
  | Locked        (* holds the write lock, nothing written yet *)
  | WroteToken    (* [token] written *)
  | WroteErr.     (* [token] and [err] written, about to unlock *)

Inductive loop_pc : Type :=
  (** blocked in [select] on the timer, armed with [d], and on
      [resetRefreshTokenTickChan] *)
  | Idle (d : Duration)
  (** the call to the [Authenticate] collaborator is in flight;
      [forced] is the interval that came over the channel, if the
      refresh was requested that way *)
  | Refreshing (forced : option Duration)
  (** the answer [r] has arrived and is being stored; the timer will be
      armed with [next] *)
  | Publishing (w : write_pc) (r : AuthResult) (next : Duration).

(** Where a caller of [Token] is. Each value read is paired with the
    index of the refresh that wrote it. *)
Inductive reader_pc : Type :=
  | RCall
  | RLocked
  | RGotToken (t : string) (tby : nat)
  | RGotErr (t : string) (tby : nat) (e : option error) (eby : nat)
  | RDone (t : string) (e : option error) (tby eby : nat).

(** Where a caller that hands a new interval to the loop is. *)
Inductive forcer_pc : Type :=
  | FCall (D : Duration)
  | FReturned (D : Duration).

Global Instance write_pc_eq_dec : EqDecision write_pc.
Proof. solve_decision. Defined.
Global Instance AuthResult_eq_dec : EqDecision AuthResult.
Proof. solve_decision. Defined.
Global Instance loop_pc_eq_dec : EqDecision loop_pc.
Proof. solve_decision. Defined.
Global Instance reader_pc_eq_dec : EqDecision reader_pc.
Proof. solve_decision. Defined.
Global Instance forcer_pc_eq_dec : EqDecision forcer_pc.
Proof. solve_decision. Defined.

(** The client, the goroutines that share it, and the history of what
    was stored in [currentToken]. *)
Record Sys : Type := mkSys {
  cl : Client;
  (** [None] until [go c.tokenService()] *)
  loop : option loop_pc;
  (** how many times [Authenticate] has been called *)
  attempts : nat;
  readers : list reader_pc;
  forcers : list forcer_pc;
  (** which refresh last wrote [token], and which last wrote [err] *)
  tok_by : nat;
  err_by : nat;
  (** the pairs stored so far; entry [0] is the zero value the struct
      is allocated with *)
  published : list (string * option error) }.

Definition set_loop (p : option loop_pc) (s : Sys) : Sys :=
  mkSys (cl s) p (attempts s) (readers s) (forcers s)
        (tok_by s) (err_by s) (published s).

Definition set_readers (rs : list reader_pc) (s : Sys) : Sys :=
  mkSys (cl s) (loop s) (attempts s) rs (forcers s)
        (tok_by s) (err_by s) (published s).

Definition set_forcers (fs : list forcer_pc) (s : Sys) : Sys :=
  mkSys (cl s) (loop s) (attempts s) (readers s) fs
        (tok_by s) (err_by s) (published s).

Definition set_mutex (mu : RWMutex) (s : Sys) : Sys :=
  let ct := currentToken (cl s) in
  mkSys (set_currentToken (mkCurrentToken mu (token ct) (err ct)) (cl s))
        (loop s) (attempts s) (readers s) (forcers s)
        (tok_by s) (err_by s) (published s).

(** The fields a reader of the cache sees. *)
Definition cur_token (s : Sys) : string := token (currentToken (cl s)).
Definition cur_err (s : Sys) : option error := err (currentToken (cl s)).
Definition cur_mutex (s : Sys) : RWMutex := rwmutex (currentToken (cl s)).

(** The zero value of [currentToken]: no token, no error. *)
Definition uninitialized (ct : CurrentToken) : Prop :=
  token ct = "" ∧ err ct = None.

Global Instance uninitialized_dec ct : Decision (uninitialized ct).
Proof. unfold uninitialized. apply _. Defined.

(** How many readers hold the read lock. *)
Definition holds_rlock (r : reader_pc) : bool :=
  match r with
  | RLocked | RGotToken _ _ | RGotErr _ _ _ _ => true
  | RCall | RDone _ _ _ _ => false
  end.

Fixpoint rlocks (rs : list reader_pc) : nat :=
  match rs with
  | [] => 0
  | r :: rs => ((if holds_rlock r then 1 else 0) + rlocks rs)%nat
  end.

(** Whether the loop is between [Lock] and [Unlock]. *)
Definition in_write_section (p : option loop_pc) : bool :=
  match p with
  | Some (Publishing Locked _ _)
  | Some (Publishing WroteToken _ _)
  | Some (Publishing WroteErr _ _) => true
  | _ => false
  end.

(** Whether the loop has called [Lock] and waits for the readers that
    are inside to leave. A [sync.RWMutex] lets no new reader in while a
    call of [Lock] is pending. *)
Definition lock_pending (p : option loop_pc) : bool :=
  match p with
  | Some (Publishing WaitLock _ _) => true
  | _ => false
  end.

(** Whether the loop holds an answer it has not finished storing: it
    has requested the write lock or holds it. *)
Definition storing (p : option loop_pc) : bool :=
  match p with
  | Some (Publishing _ _ _) => true
  | _ => false
  end.


Section Cache.
Context `{Collaborators}.

(** Modelled from the spec: the refresh routine is not in the source
    file. On success the state becomes [(newToken, none)]; on failure
    it becomes [(previous-token-or-empty, error)]. *)
Definition next_token (r : AuthResult) (prev : string) : string :=
  match auth_err r with
  | None => auth_token r
  | Some _ => prev
  end.

(** Modelled from the spec: the timer is rearmed to the externally
    forced interval if there is one, else to the interval computed
    from the reported validity after a success, and to the fallback
    interval after a failure. *)
Definition next_interval (forced : option Duration) (r : AuthResult)
  : Duration :=
  match forced with
  | Some D => D
  | None =>
      match auth_err r with
      | None => interval_of_validity (auth_validFor r)
      | Some _ => fallback_interval
      end
  end.

(** The answer to the next fetch. *)
Definition fetch (s : Sys) : AuthResult :=
  Authenticate (appid (cl s)) (appsecret (cl s)) (attempts s).

(** What happens in one step, and to whom. *)
Inductive label : Type :=
  (** the timer, armed with [d], fires *)
  | LTimer (d : Duration)
  (** forcer [i] and the loop meet on the channel with value [D] *)
  | LHandoff (i : nat) (D : Duration)
  (** the [n]-th call of [Authenticate] returns *)
  | LFetch (n : nat)
  | LLock
  | LWriteToken
  | LWriteErr
  | LUnlock
  | LRLock (i : nat)
  | LReadToken (i : nat)
  | LReadErr (i : nat)
  | LRUnlock (i : nat)
  (** a goroutine calls [Token] *)
  | LCallToken
  (** a goroutine asks for a refresh with interval [D] *)
  | LCallForce (D : Duration).

Global Instance label_eq_dec : EqDecision label.
Proof. solve_decision. Defined.

(** Modelled from the spec: [tokenService], [Token] and the request
    to reschedule are not in the source file. The loop waits on the
    timer or the channel, fetches, stores both fields under the write
    lock and rearms the timer; a reader takes the read lock, which it
    gets when no writer holds or has requested the lock, reads both
    fields and releases it; a reschedule is a rendezvous on the
    unbuffered channel with the idle loop. [exec l s] is the state
    after step [l], or [None] when [l] cannot happen in [s]. *)
Definition exec (l : label) (s : Sys) : option Sys :=
  let ct := currentToken (cl s) in
  let mu := rwmutex ct in
  match l with
  | LTimer d =>
      match loop s with
      | Some (Idle d') =>
          if decide (d = d') then Some (set_loop (Some (Refreshing None)) s)
          else None
      | _ => None
      end
  | LHandoff i D =>
      match loop s, forcers s !! i with
      | Some (Idle _), Some (FCall D') =>
          if decide (D = D' ∧ chan_cap (resetRefreshTokenTickChan (cl s)) = 0%nat)
          then Some (set_loop (Some (Refreshing (Some D)))
                       (set_forcers (<[i := FReturned D]> (forcers s)) s))
          else None
      | _, _ => None
      end
  | LFetch n =>
      match loop s with
      | Some (Refreshing forced) =>
          if decide (n = attempts s)
          then Some (mkSys (cl s)
                       (Some (Publishing WaitLock (fetch s)
                                (next_interval forced (fetch s))))
                       (S (attempts s)) (readers s) (forcers s)
                       (tok_by s) (err_by s) (published s))
          else None
      | _ => None
      end
  | LLock =>
      match loop s with
      | Some (Publishing WaitLock r d) =>
          if decide (writer mu = false ∧ readerCount mu = 0%nat)
          then Some (set_loop (Some (Publishing Locked r d))
                       (set_mutex (mkRWMutex true (readerCount mu)) s))
          else None
      | _ => None
      end
  | LWriteToken =>
      match loop s with
      | Some (Publishing Locked r d) =>
          Some (mkSys
                  (set_currentToken
                     (mkCurrentToken mu (next_token r (token ct)) (err ct))
                     (cl s))
                  (Some (Publishing WroteToken r d))
                  (attempts s) (readers s) (forcers s)
                  (length (published s)) (err_by s) (published s))
      | _ => None
      end
  | LWriteErr =>
      match loop s with
      | Some (Publishing WroteToken r d) =>
          Some (mkSys
                  (set_currentToken
                     (mkCurrentToken mu (token ct) (auth_err r)) (cl s))
                  (Some (Publishing WroteErr r d))
                  (attempts s) (readers s) (forcers s)
                  (tok_by s) (length (published s)) (published s))
      | _ => None
      end
  | LUnlock =>
      match loop s with
      | Some (Publishing WroteErr r d) =>
          Some (mkSys
                  (set_currentToken
                     (mkCurrentToken (mkRWMutex false (readerCount mu))
                        (token ct) (err ct)) (cl s))
                  (Some (Idle d))
                  (attempts s) (readers s) (forcers s)
                  (tok_by s) (err_by s)
                  (published s ++ [(token ct, err ct)]))
      | _ => None
      end
  | LRLock i =>
      match readers s !! i with
      | Some RCall =>
          if decide (writer mu = false ∧ lock_pending (loop s) = false)
          then Some (set_readers (<[i := RLocked]> (readers s))
                       (set_mutex (mkRWMutex (writer mu) (S (readerCount mu))) s))
          else None
      | _ => None
      end
  | LReadToken i =>
      match readers s !! i with
      | Some RLocked =>
          Some (set_readers (<[i := RGotToken (token ct) (tok_by s)]> (readers s)) s)
      | _ => None
      end
  | LReadErr i =>
      match readers s !! i with
      | Some (RGotToken t tby) =>
          Some (set_readers
                  (<[i := RGotErr t tby (err ct) (err_by s)]> (readers s)) s)
      | _ => None
      end
  | LRUnlock i =>
      match readers s !! i with
      | Some (RGotErr t tby e eby) =>
          Some (set_readers (<[i := RDone t e tby eby]> (readers s))
                  (set_mutex (mkRWMutex (writer mu) (pred (readerCount mu))) s))
      | _ => None
      end
  | LCallToken => Some (set_readers (readers s ++ [RCall]) s)
  | LCallForce D => Some (set_forcers (forcers s ++ [FCall D]) s)
  end.

(** A sequence of steps. *)
Fixpoint run (tr : list label) (s : Sys) : option Sys :=
  match tr with
  | [] => Some s
  | l :: tr => s1 ← exec l s; run tr s1
  end.

(** ** The constructor *)

(** [c := &Client{...}] with the [if httpClient == nil] that follows
    it: the fields not listed have their zero values, and no
    goroutine shares the client yet. *)
Definition alloc_Client (appid appsecret : string)
    (httpClient : option http.Client) : Sys :=
  mkSys
    (mkClientRec appid appsecret
       (mkCurrentToken (mkRWMutex false 0) "" None)
       make_chan
       (pool_New 16)
       (match httpClient with
        | None => http_DefaultClient
        | Some h => h
        end))
    None 0 [] [] 0%nat 0%nat [("", None)].

(** [go c.tokenService()]: the loop starts and waits. *)
Definition go_tokenService (s : Sys) : Sys :=
  set_loop (Some (Idle initial_interval)) s.

(** Modelled from the spec: [Client.TokenRefresh] is not in the source
    file; the constructor calls it with no argument and discards its
    results. It is the refresh routine run on the caller's thread:
    one call of [Authenticate], both fields stored together, and the
    waiting loop's timer set from the outcome. *)
Definition TokenRefresh (s : Sys) : Sys :=
  let r := fetch s in
  let ct := currentToken (cl s) in
  let t := next_token r (token ct) in
  mkSys
    (set_currentToken (mkCurrentToken (rwmutex ct) t (auth_err r)) (cl s))
    (match loop s with
     | Some (Idle _) => Some (Idle (next_interval None r))
     | p => p
     end)
    (S (attempts s)) (readers s) (forcers s)
    (length (published s)) (length (published s))
    (published s ++ [(t, auth_err r)]).

(** [func NewClient(appid, appsecret string, httpClient *http.Client)
    *Client]: the one result is the pointer [c], [None] standing for
    nil; the second component is the system the call leaves running. *)
Definition NewClient (appid appsecret : string)
    (httpClient : option http.Client) : option Client * Sys :=
  let s0 := alloc_Client appid appsecret httpClient in
  let s1 := go_tokenService s0 in
  let s2 := TokenRefresh s1 in
  (Some (cl s2), s2).

(** The states the system can be in after [NewClient] has returned. *)
Inductive reachable (a b : string) (h : option http.Client) : Sys → Prop :=
  | reach_init : reachable a b h (NewClient a b h).2
  | reach_step s l s1 :
      reachable a b h s → exec l s = Some s1 → reachable a b h s1.

(** What the lock and the history look like in every state. *)
Record Inv (s : Sys) : Prop := mkInv {
  (** the write lock is held exactly between [Lock] and [Unlock] *)
  inv_writer : writer (cur_mutex s) = in_write_section (loop s);
  (** the mutex counts the readers that hold it *)
  inv_readers : readerCount (cur_mutex s) = rlocks (readers s);
  (** a writer excludes readers *)
  inv_excl : writer (cur_mutex s) = true → rlocks (readers s) = 0%nat;
  (** outside the write section both fields are the last pair stored *)
  inv_quiet :
    in_write_section (loop s) = false →
    tok_by s = err_by s ∧
    published s !! tok_by s = Some (cur_token s, cur_err s) ∧
    S (tok_by s) = length (published s);
  (** inside it, what is written gets the next index *)
  inv_wrote :
    match loop s with
    | Some (Publishing WroteToken _ _) => tok_by s = length (published s)
    | Some (Publishing WroteErr _ _) =>
        tok_by s = length (published s) ∧ err_by s = length (published s)
    | _ => True
    end;
  (** what each reader holds *)
  inv_reader : ∀ i r, readers s !! i = Some r →
    match r with
    | RGotToken t n => t = cur_token s ∧ n = tok_by s
    | RGotErr t n e k | RDone t e n k =>
        n = k ∧ published s !! n = Some (t, e)
    | _ => True
    end }.

(** The four steps of one call of [Token]. *)
Definition Token_steps (i : nat) : list label :=
  [LRLock i; LReadToken i; LReadErr i; LRUnlock i].

(** The steps of one refresh by the loop, from the return of the
    [n]-th call of [Authenticate] to the release of the write lock. *)
Definition refresh_steps (n : nat) : list label :=
  [LFetch n; LLock; LWriteToken; LWriteErr; LUnlock].

(** The steps in which the loop stores the answer it holds. *)
Definition is_store (l : label) : bool :=
  match l with
  | LWriteToken | LWriteErr | LUnlock => true
  | _ => false
  end.





(** What is fixed when the client is constructed. *)
Definition configuration (c : Client)
  : string * string * http.Client * nat * Chan :=
  (appid c, appsecret c, httpClient c, pool_cap (bufferPool c),
   resetRefreshTokenTickChan c).

(** The state [tr] leads to from [s]; [s] itself if [tr] cannot run. *)
Definition after (tr : list label) (s : Sys) : Sys :=
  default s (run tr s).


(** What holds of the credential state from the constructor's fetch
    on, for a client constructed with [(a, b)]: the client keeps its
    identity, the state is not the zero value, and an answer being
    stored is an answer of the authority. *)
Definition populated (a b : string) (s : Sys) : Prop :=
  appid (cl s) = a ∧ appsecret (cl s) = b ∧
  ¬ uninitialized (currentToken (cl s)) ∧
  ∀ w r d, loop s = Some (Publishing w r d) →
    (∃ n, r = Authenticate a b n) ∧
    (w = WroteToken → auth_err r = None → cur_token s ≠ "").

(** What a reader that holds the read lock still has to do. *)
Definition finish_steps (i : nat) (r : reader_pc) : list label :=
  match r with
  | RLocked => [LReadToken i; LReadErr i; LRUnlock i]
  | RGotToken _ _ => [LReadErr i; LRUnlock i]
  | RGotErr _ _ _ _ => [LRUnlock i]
  | RCall | RDone _ _ _ _ => []
  end.

(** The steps a caller of [Token] may have to wait for: readers that
    are inside leaving, and the loop taking the lock, storing and
    releasing it. *)
Definition is_wait (l : label) : bool :=
  match l with
  | LReadToken _ | LReadErr _ | LRUnlock _
  | LLock | LWriteToken | LWriteErr | LUnlock => true
  | _ => false
  end.

(** How the history relates to the authority, for a client made with
    [(a, b)]: the [k+1]-st pair stored holds the error of fetch [k],
    every fetch made has been stored except one that is being stored,
    and an answer being stored is the answer of the last fetch. *)
Definition pinned (a b : string) (s : Sys) : Prop :=
  appid (cl s) = a ∧ appsecret (cl s) = b ∧
  (0 < attempts s)%nat ∧
  (∀ k t e, published s !! S k = Some (t, e) →
            e = auth_err (Authenticate a b k)) ∧
  match loop s with
  | Some (Publishing w r d) =>
      length (published s) = attempts s ∧
      r = Authenticate a b (pred (attempts s)) ∧
      (w = WroteErr → cur_err s = auth_err r)
  | Some _ => length (published s) = S (attempts s)
  | None => False
  end.


End Cache.

(** ** Concrete worlds *)

(** A transport that answers every request for [/ok] with [200 OK] and
    a body, for [/empty] with [200 OK] and no body, for [/created] with
    [201 Created], anything else with [404 Not Found], and that cannot
    reach [/down]. *)
Definition answer (url : string) : http.Response + error :=
  if decide (url = "/ok") then inl (http.mkResponse 200 "200 OK" "{}")
  else if decide (url = "/empty") then inl (http.mkResponse 200 "200 OK" "")
  else if decide (url = "/created")
       then inl (http.mkResponse 201 "201 Created" "{}")
  else if decide (url = "/down") then inr "dial tcp: connection refused"
  else inl (http.mkResponse 404 "404 Not Found" "").

Definition demo_http : http.Client :=
  http.mkClient (λ url _ _, answer url) answer.

(** The authority grants ["tok1"] for two hours on the first fetch and
    is unreachable afterwards. *)
Definition two_hours : Duration := 7200 * 1000000000.
Definition one_minute : Duration := 60 * 1000000000.
Definition five_minutes : Duration := 300 * 1000000000.

Definition demo : Collaborators := {|
  Value := string;
  json_Encode v := if decide (v = "chan") then inr "json: unsupported type"
                   else inl v;
  json_Decode b := if decide (b = "") then inr "EOF" else inl b;
  http_DefaultClient := demo_http;
  Authenticate _ _ n :=
    match n with
    | O => mkAuth "tok1" two_hours None
    | S _ => mkAuth "" 0 (Some "ErrNetwork")
    end;
  interval_of_validity d := d - 10 * 1000000000;
  fallback_interval := one_minute;
  initial_interval := one_minute |}.

(** The same world with the authority unreachable from the start. *)
Definition down : Collaborators := {|
  Value := string;
  json_Encode v := inl v;
  json_Decode b := inl b;
  http_DefaultClient := demo_http;
  Authenticate _ _ _ := mkAuth "" 0 (Some "ErrNetwork");
  interval_of_validity d := d;
  fallback_interval := one_minute;
  initial_interval := one_minute |}.

(** A world whose authority reports success and grants no token. *)
Definition blank : Collaborators := {|
  Value := string;
  json_Encode v := inl v;
  json_Decode b := inl b;
  http_DefaultClient := demo_http;
  Authenticate _ _ _ := mkAuth "" two_hours None;
  interval_of_validity d := d;
  fallback_interval := one_minute;
  initial_interval := one_minute |}.

(** The memory of a freshly constructed client. *)
Definition fresh_mem (c : Client) : Mem := mkMem c ∅ 0%nat [].

(** The client [NewClient("wx1", "s3cret", nil)] returns in [demo]. *)
Definition demo_client : Client :=
  cl (NewClient (H := demo) "wx1" "s3cret" None).2.

(** The body [postJSON] sends for [request] when called in [m]. *)
Definition postJSON_body `{Collaborators} (request : Value) (m : Mem) : string :=
  let '(b, m0) := getBufferFromPool m in
  let '(_, m1) := Encoder_Encode b request m0 in
  default "" (bufs m1 !! b).

(** The system [NewClient("wx1", "s3cret", nil)] leaves running in
    [demo], and the interval its loop waits for: ten seconds less than
    the two hours granted. *)
Definition demo_sys : Sys := (NewClient (H := demo) "wx1" "s3cret" None).2.
Definition demo_interval : Duration := two_hours - 10 * 1000000000.

(** One caller of [Token] arrives and the timer fires: a fetch is in
    flight while the caller is about to read. *)
Definition demo_fetching : Sys :=
  after (H := demo) [LCallToken; LTimer demo_interval] demo_sys.

(** The refresh the timer starts in [demo], which fails, run to its end. *)
Definition demo_failed_refresh : list label :=
  [LTimer demo_interval; LFetch 1; LLock; LWriteToken; LWriteErr; LUnlock].

(** After that failed refresh a caller of [Token] arrives and the timer
    fires again: the next fetch is in flight while the caller is about
    to read. *)
Definition demo_refetching : Sys :=
  after (H := demo)
    (demo_failed_refresh ++ [LCallToken; LTimer one_minute]) demo_sys.

(** A caller of [Token] arrives while the loop holds the write lock and
    has written the token of the answer it is storing. *)
Definition demo_storing : Sys :=
  after (H := demo)
    [LCallToken; LTimer demo_interval; LFetch 1; LLock; LWriteToken] demo_sys.

(** A reader that reads the token, is overtaken by the fetch, and goes
    on to read the error before the loop can take the lock. *)
Definition demo_overlap : list label :=
  [LCallToken; LRLock 0; LReadToken 0; LTimer demo_interval; LFetch 1;
   LReadErr 0; LRUnlock 0; LLock; LWriteToken; LWriteErr; LUnlock;
   LCallToken; LRLock 1; LReadToken 1; LReadErr 1; LRUnlock 1].

(** Two requests to reschedule, handed over one after the other. *)
Definition demo_two_requests : list label :=
  [LCallForce five_minutes; LCallForce one_minute;
   LHandoff 0 five_minutes; LFetch 1; LLock; LWriteToken; LWriteErr; LUnlock;
   LHandoff 1 one_minute; LFetch 2; LLock; LWriteToken; LWriteErr; LUnlock].

(** Whether an event borrows from or returns to the pool. *)
Definition touches_pool (e : Event) : bool :=
  match e with
  | EvGetBuffer _ | EvPutBuffer _ => true
  | _ => false
  end.

(** ** Calls in sequence *)

(** The events a call added to the log: those of [m1] after the ones
    already in [m]. *)
Definition events_since (m m1 : Mem) : list Event :=
  drop (length (log m)) (log m1).

Definition is_post (e : Event) : bool :=
  match e with
  | EvPost _ _ _ => true
  | _ => false
  end.

(** How many of the events in [l] satisfy [p]. *)
Definition count_events (p : Event → bool) (l : list Event) : nat :=
  length (filter (λ e, p e = true) l).

(** How often [e] occurs in [l]. *)
Definition occurrences (e : Event) (l : list Event) : nat :=
  length (filter (λ x, x = e) l).

(** The buffers of the pool as the helpers leave them between calls:
    the idle ones are within the capacity, distinct, allocated and
    empty. *)
Record pool_ok (m : Mem) : Prop := mkPoolOk {
  ok_cap : (0 < pool_cap (bufferPool (client m)))%nat;
  ok_len : (length (pool_idle (bufferPool (client m)))
              ≤ pool_cap (bufferPool (client m)))%nat;
  ok_nodup : NoDup (pool_idle (bufferPool (client m)));
  ok_alloc : ∀ b, b ∈ pool_idle (bufferPool (client m)) → (b < next_buf m)%nat;
  ok_empty : ∀ b, b ∈ pool_idle (bufferPool (client m)) → bufs m !! b = Some "" }.

(** One use of a client by a caller: a call of [postJSON] or of
    [getJSON]. *)
Inductive Call `{Collaborators} : Type :=
  | DoPost (_url : string) (request : Value)
  | DoGet (_url : string).

Definition do_call `{Collaborators} (c : Call)
  : M (option error * option Value) :=
  match c with
  | DoPost u r => postJSON u r
  | DoGet u => getJSON u
  end.

(** Calls made one after the other on the same client. *)
Fixpoint do_calls `{Collaborators} (cs : list Call) (m : Mem) : Mem :=
  match cs with
  | [] => m
  | c :: cs => do_calls cs (do_call c m).2
  end.

(** The memory [m] with the client's [currentToken] replaced by [t],
    as a refresh of the token leaves it. *)
Definition with_token (t : CurrentToken) (m : Mem) : Mem :=
  mkMem (set_currentToken t (client m)) (bufs m) (next_buf m) (log m).

(** A statement that neither reads nor writes [currentToken]: run
    with another token state, it returns the same and changes the
    memory the same way. *)
Definition ignores_token {A : Type} (f : M A) : Prop :=
  ∀ t m, f (with_token t m) = ((f m).1, with_token t (f m).2).

(** A memory in which two buffers are idle in the pool. *)
Definition demo_two_idle : Mem :=
  mkMem (set_bufferPool (mkPool 16 [0%nat; 1%nat]) demo_client)
        (<[1%nat := ""]> (<[0%nat := ""]> ∅)) 2%nat [].

(** A second caller of [Token] arrives while the first is inside and
    the loop has asked for the write lock. *)
Definition demo_lock_pending : Sys :=
  after (H := demo)
    [LCallToken; LRLock 0; LReadToken 0; LTimer demo_interval; LFetch 1;
     LCallToken] demo_sys.

(** Three calls made in [demo], one after the other. *)
Definition demo_calls : list (Call (H := demo)) :=
  [DoPost (H := demo) "/ok" "{}"; DoGet (H := demo) "/created";
   DoPost (H := demo) "/down" "[]"].

(** * Properties of the request helpers *)

(** Unfold the statements of a helper down to memory updates. *)
Ltac step_M :=
  unfold handle_response, defer, Decoder_Decode, httpClient_Get,
    httpClient_Post, Encoder_Encode, emit, mbind, M_bind, mret, M_ret;
  simpl.

Section HelperFacts.
Context `{Collaborators}.

(** After a response has arrived, a helper only decodes and closes. *)
Lemma handle_response_log resp m :
  ∃ evs, log (handle_response resp m).2 = log m ++ evs ∧
         Forall (λ e, touches_pool e = false) evs ∧
         client (handle_response resp m).2 = client m ∧
         bufs (handle_response resp m).2 = bufs m ∧
         next_buf (handle_response resp m).2 = next_buf m.
Proof.
  step_M. case_bool_decide; simpl.
  - exists [EvBodyClose]. repeat split; auto.
  - destruct (json_Decode (http.Body resp)); simpl;
      exists [EvDecode; EvBodyClose]; rewrite <- app_assoc;
      repeat split; auto.
Qed.

(** A response whose status is not [200] is turned into an error
    carrying the status text, and its body is never decoded. *)
Lemma handle_response_not_ok resp m :
  http.StatusCode resp ≠ http.StatusOK →
  handle_response resp m =
    ((Some (fmt_Errorf_status (http.Status resp)), None),
     mkMem (client m) (bufs m) (next_buf m) (log m ++ [EvBodyClose])).
Proof.
  intros Hne. step_M.
  rewrite bool_decide_eq_true_2 by done. reflexivity.
Qed.

Lemma handle_response_ok resp m :
  http.StatusCode resp = http.StatusOK →
  handle_response resp m =
    (match json_Decode (http.Body resp) with
     | inl v => (None, Some v)
     | inr e => (Some e, None)
     end,
     mkMem (client m) (bufs m) (next_buf m)
           (log m ++ [EvDecode; EvBodyClose])).
Proof.
  intros Heq. step_M.
  rewrite bool_decide_eq_false_2 by (intros ?; done). simpl.
  destruct (json_Decode (http.Body resp)); simpl;
    rewrite <- app_assoc; reflexivity.
Qed.

Lemma postJSON_unfold _url request m :
  postJSON _url request m =
    let '(buf, m0) := getBufferFromPool m in
    let '(r, m1) := rest_of_postJSON buf _url request m0 in
    (r, (putBufferToPool buf m1).2).
Proof.
  unfold postJSON, rest_of_postJSON, defer, mbind, M_bind.
  destruct (getBufferFromPool m) as [buf m0].
  match goal with |- (let '(_, _) := ?t in _) = _ => destruct t as [r m1] end.
  unfold putBufferToPool. reflexivity.
Qed.

(** Taking a buffer changes the pool and the log, nothing else. *)
Lemma getBufferFromPool_frame m :
  log (getBufferFromPool m).2 = log m ++ [EvGetBuffer (getBufferFromPool m).1] ∧
  httpClient (client (getBufferFromPool m).2) = httpClient (client m).
Proof.
  unfold getBufferFromPool.
  destruct (pool_idle (bufferPool (client m))); simpl; auto.
Qed.

(** Between the two pool calls, [postJSON] leaves the pool and the set
    of allocated buffers alone. *)
Lemma rest_of_postJSON_frame buf _url request m0 :
  ∃ mid, log (rest_of_postJSON buf _url request m0).2 = log m0 ++ mid ∧
         Forall (λ e, touches_pool e = false) mid ∧
         client (rest_of_postJSON buf _url request m0).2 = client m0 ∧
         next_buf (rest_of_postJSON buf _url request m0).2 = next_buf m0.
Proof.
  unfold rest_of_postJSON, Encoder_Encode, mbind, M_bind, mret, M_ret.
  destruct (json_Encode request) as [bytes|e]; simpl.
  2: { exists [EvEncode]. repeat split; auto. }
  match goal with
  | |- context [http.Post ?c ?u ?t ?b] => destruct (http.Post c u t b) as [resp|e]
  end; simpl.
  2: { eexists [EvEncode; EvPost _ _ _]. rewrite <- app_assoc.
       repeat split; auto. }
  match goal with
  | |- context [handle_response resp ?m] =>
      destruct (handle_response_log resp m) as (evs & Hlog & Hevs & Hcl & _ & Hnb)
  end.
  eexists ([EvEncode; EvPost _ _ _] ++ evs).
  rewrite Hlog, Hcl, Hnb. simpl. rewrite <- !app_assoc. simpl.
  repeat split; auto.
Qed.

(** C7. Every execution of [postJSON] hands the buffer it took from
    the pool at entry back to the pool as its last act, whichever
    [return] it leaves by (success, encode error, transport error,
    status other than 200, decode error): the log of the call is the
    acquisition of [b], then events that do not touch the pool, then
    the release of the same [b]; afterwards [b] is idle in the pool
    and empty, and the pool is within its capacity. *)
Theorem postJSON_releases_buffer _url request m :
  (0 < pool_cap (bufferPool (client m)))%nat →
  (length (pool_idle (bufferPool (client m)))
     ≤ pool_cap (bufferPool (client m)))%nat →
  ∃ b mid,
    (getBufferFromPool m).1 = b ∧
    log (postJSON _url request m).2
      = log m ++ [EvGetBuffer b] ++ mid ++ [EvPutBuffer b] ∧
    Forall (λ e, touches_pool e = false) mid ∧
    b ∈ pool_idle (bufferPool (client (postJSON _url request m).2)) ∧
    bufs (postJSON _url request m).2 !! b = Some "" ∧
    pool_cap (bufferPool (client (postJSON _url request m).2))
      = pool_cap (bufferPool (client m)) ∧
    (length (pool_idle (bufferPool (client (postJSON _url request m).2)))
       ≤ pool_cap (bufferPool (client m)))%nat.
Proof.
  intros Hcap Hlen. rewrite postJSON_unfold.
  destruct (getBufferFromPool m) as [b m0] eqn:Hget.
  destruct (rest_of_postJSON_frame b _url request m0)
    as (mid & Hlog & Hmid & Hcl & _).
  destruct (rest_of_postJSON b _url request m0) as [r m1]. simpl in *.
  exists b, mid. split; [done|].
  assert (log m0 = log m ++ [EvGetBuffer b] ∧
          pool_cap (bufferPool (client m0)) = pool_cap (bufferPool (client m)) ∧
          (length (pool_idle (bufferPool (client m0)))
             < pool_cap (bufferPool (client m)))%nat) as (Hl0 & Hc0 & Hi0).
  { unfold getBufferFromPool in Hget.
    destruct (pool_idle (bufferPool (client m))) as [|b' rest] eqn:Hidle;
      inversion Hget; subst; simpl in *.
    - rewrite Hidle. simpl. repeat split; lia.
    - repeat split; lia. }
  rewrite Hcl, Hlog, Hl0, Hc0.
  rewrite bool_decide_eq_true_2 by lia. simpl.
  rewrite lookup_insert_eq, length_app. simpl.
  rewrite <- !app_assoc. simpl.
  repeat split; auto.
  - set_solver.
  - lia.
Qed.

(** C8. A response whose status is not 2xx makes [postJSON] and
    [getJSON] return the error built from the response's status text;
    the body is closed and never decoded. *)
Theorem non_2xx_is_status_error _url request resp m :
  ¬ (200 ≤ http.StatusCode resp ≤ 299)%Z →
  (∀ bytes,
     json_Encode request = inl bytes →
     http.Post (httpClient (client m)) _url
       "application/json; charset=utf-8" (postJSON_body request m)
       = inl resp →
     (postJSON _url request m).1
       = (Some (fmt_Errorf_status (http.Status resp)), None) ∧
     log (postJSON _url request m).2
       = log m ++ [EvGetBuffer (getBufferFromPool m).1; EvEncode;
                   EvPost _url "application/json; charset=utf-8"
                     (postJSON_body request m);
                   EvBodyClose;
                   EvPutBuffer (getBufferFromPool m).1]) ∧
  (http.Get (httpClient (client m)) _url = inl resp →
     (getJSON _url m).1
       = (Some (fmt_Errorf_status (http.Status resp)), None) ∧
     log (getJSON _url m).2 = log m ++ [EvGet _url; EvBodyClose]).
Proof.
  intros Hst.
  assert (http.StatusCode resp ≠ http.StatusOK) as Hne.
  { unfold http.StatusOK. lia. }
  split.
  - intros bytes Henc Hpost. rewrite postJSON_unfold.
    unfold postJSON_body in *.
    destruct (getBufferFromPool_frame m) as [Hl0 Hh0].
    destruct (getBufferFromPool m) as [b m0]. simpl in *.
    unfold rest_of_postJSON, Encoder_Encode, httpClient_Post,
      mbind, M_bind, mret, M_ret in *.
    rewrite Henc in *. simpl in *. rewrite Hh0, Hpost.
    rewrite handle_response_not_ok by done. simpl.
    rewrite Hl0, <- !app_assoc. done.
  - intros Hget. unfold getJSON, httpClient_Get, mbind, M_bind. simpl.
    rewrite Hget, handle_response_not_ok by done. simpl.
    by rewrite <- app_assoc.
Qed.

(** C10. [getJSON] returns a non-nil error exactly when the GET
    fails, or the status of the response is not [200], or decoding
    the body fails; it returns nil exactly when a [200] response was
    decoded, and then the decoded value is what it stored. It never
    borrows from or returns to the buffer pool, and leaves the client
    and the buffers as they were. *)
Theorem getJSON_error_iff _url m :
  ((getJSON _url m).1.1 ≠ None ↔
     (∃ e, http.Get (httpClient (client m)) _url = inr e) ∨
     (∃ resp, http.Get (httpClient (client m)) _url = inl resp ∧
              http.StatusCode resp ≠ http.StatusOK) ∨
     (∃ resp e, http.Get (httpClient (client m)) _url = inl resp ∧
                http.StatusCode resp = http.StatusOK ∧
                json_Decode (http.Body resp) = inr e)) ∧
  ((getJSON _url m).1.1 = None ↔
     ∃ resp v, http.Get (httpClient (client m)) _url = inl resp ∧
               http.StatusCode resp = http.StatusOK ∧
               json_Decode (http.Body resp) = inl v ∧
               (getJSON _url m).1.2 = Some v) ∧
  (∃ evs, log (getJSON _url m).2 = log m ++ evs ∧
          Forall (λ e, touches_pool e = false) evs) ∧
  client (getJSON _url m).2 = client m ∧
  bufs (getJSON _url m).2 = bufs m ∧
  next_buf (getJSON _url m).2 = next_buf m.
Proof.
  unfold getJSON, httpClient_Get, mbind, M_bind, mret, M_ret. simpl.
  destruct (http.Get (httpClient (client m)) _url) as [resp|e] eqn:Hget.
  2: { simpl. split_and!; try done.
       - split; [intros _; left; eauto | done].
       - split; [done | intros (? & ? & ? & _); done].
       - exists [EvGet _url]. split; [done | repeat constructor]. }
  destruct (decide (http.StatusCode resp = http.StatusOK)) as [Hok|Hne].
  - rewrite handle_response_ok by done. simpl.
    destruct (json_Decode (http.Body resp)) as [v|e] eqn:Hdec; simpl.
    + split_and!; try done.
      * split; [done |].
        intros [(? & ?)|[(? & ? & ?)|(? & ? & ? & ? & ?)]];
          simplify_eq; congruence.
      * split; [intros _; eauto 10 | done].
      * exists [EvGet _url; EvDecode; EvBodyClose].
        rewrite <- app_assoc. split; [done | repeat constructor].
    + split_and!; try done.
      * split; [intros _; right; right; eauto 10 | done].
      * split; [done |].
        intros (? & ? & ? & ? & ? & _); simplify_eq; congruence.
      * exists [EvGet _url; EvDecode; EvBodyClose].
        rewrite <- app_assoc. split; [done | repeat constructor].
  - rewrite handle_response_not_ok by done. simpl.
    split_and!; try done.
    + split; [intros _; right; left; eauto | done].
    + split; [done | intros (? & ? & ? & ? & _); simplify_eq; congruence].
    + exists [EvGet _url; EvBodyClose].
      rewrite <- app_assoc. split; [done | repeat constructor].
Qed.

(** The request helpers change nothing of what the constructor fixed. *)
Lemma postJSON_configuration _url request m :
  configuration (client (postJSON _url request m).2)
  = configuration (client m).
Proof.
  rewrite postJSON_unfold.
  destruct (getBufferFromPool m) as [b m0] eqn:Hget.
  destruct (rest_of_postJSON_frame b _url request m0)
    as (_ & _ & _ & Hcl & _).
  destruct (rest_of_postJSON b _url request m0) as [r m1]. simpl in *.
  assert (configuration (client m0) = configuration (client m)) as <-.
  { unfold getBufferFromPool in Hget.
    destruct (pool_idle (bufferPool (client m))); by simplify_eq/=. }
  rewrite Hcl. unfold configuration. simpl. by case_bool_decide.
Qed.

(** [getJSON] touches neither the client nor the buffers. *)
Lemma getJSON_frame _url m :
  client (getJSON _url m).2 = client m ∧
  bufs (getJSON _url m).2 = bufs m ∧
  next_buf (getJSON _url m).2 = next_buf m.
Proof.
  unfold getJSON, httpClient_Get, mbind, M_bind, mret, M_ret. simpl.
  destruct (http.Get (httpClient (client m)) _url) as [resp|e]; [|done].
  match goal with
  | |- context [handle_response resp ?m0] =>
      destruct (handle_response_log resp m0) as (_ & _ & _ & ? & ? & ?)
  end.
  done.
Qed.

End HelperFacts.

(** ** The helpers at work *)

(** The five ways out of [postJSON], on a fresh client. *)
Example postJSON_success :
  let r := postJSON (H := demo) "/ok" "{}" (fresh_mem demo_client) in
  r.1 = (None, Some "{}") ∧
  log r.2 = [EvGetBuffer 0; EvEncode;
             EvPost "/ok" "application/json; charset=utf-8" "{}";
             EvDecode; EvBodyClose; EvPutBuffer 0] ∧
  pool_idle (bufferPool (client r.2)) = [0%nat].
Proof. vm_compute. done. Qed.

Example postJSON_encode_error :
  let r := postJSON (H := demo) "/ok" "chan" (fresh_mem demo_client) in
  r.1 = (Some "json: unsupported type", None) ∧
  log r.2 = [EvGetBuffer 0; EvEncode; EvPutBuffer 0].
Proof. vm_compute. done. Qed.

Example postJSON_transport_error :
  let r := postJSON (H := demo) "/down" "{}" (fresh_mem demo_client) in
  r.1 = (Some "dial tcp: connection refused", None) ∧
  log r.2 = [EvGetBuffer 0; EvEncode;
             EvPost "/down" "application/json; charset=utf-8" "{}";
             EvPutBuffer 0].
Proof. vm_compute. done. Qed.

Example postJSON_status_error :
  let r := postJSON (H := demo) "/nowhere" "{}" (fresh_mem demo_client) in
  r.1 = (Some "http.Status: 404 Not Found", None) ∧
  log r.2 = [EvGetBuffer 0; EvEncode;
             EvPost "/nowhere" "application/json; charset=utf-8" "{}";
             EvBodyClose; EvPutBuffer 0].
Proof. vm_compute. done. Qed.

Example postJSON_decode_error :
  let r := postJSON (H := demo) "/empty" "{}" (fresh_mem demo_client) in
  r.1 = (Some "EOF", None) ∧
  log r.2 = [EvGetBuffer 0; EvEncode;
             EvPost "/empty" "application/json; charset=utf-8" "{}";
             EvDecode; EvBodyClose; EvPutBuffer 0].
Proof. vm_compute. done. Qed.

(** The status test is against [200] alone: [201 Created] is an error
    too, for both helpers. *)
Example created_is_an_error :
  (postJSON (H := demo) "/created" "{}" (fresh_mem demo_client)).1
    = (Some "http.Status: 201 Created", None) ∧
  (getJSON (H := demo) "/created" (fresh_mem demo_client)).1
    = (Some "http.Status: 201 Created", None).
Proof. vm_compute. done. Qed.

(** A second call reuses the buffer the first one returned. *)
Example postJSON_reuses_buffer :
  let m1 := (postJSON (H := demo) "/ok" "{}" (fresh_mem demo_client)).2 in
  let r := postJSON (H := demo) "/ok" "[]" m1 in
  drop 6 (log r.2)
    = [EvGetBuffer 0; EvEncode;
       EvPost "/ok" "application/json; charset=utf-8" "[]";
       EvDecode; EvBodyClose; EvPutBuffer 0] ∧
  next_buf r.2 = 1%nat.
Proof. vm_compute. done. Qed.

Lemma postJSON_releases_buffer_witness :
  (0 < pool_cap (bufferPool (client (fresh_mem demo_client))))%nat ∧
  (length (pool_idle (bufferPool (client (fresh_mem demo_client))))
     ≤ pool_cap (bufferPool (client (fresh_mem demo_client))))%nat ∧
  ∃ b mid,
    (getBufferFromPool (fresh_mem demo_client)).1 = b ∧
    log (postJSON (H := demo) "/empty" "{}" (fresh_mem demo_client)).2
      = log (fresh_mem demo_client) ++ [EvGetBuffer b] ++ mid ++ [EvPutBuffer b] ∧
    Forall (λ e, touches_pool e = false) mid ∧
    b ∈ pool_idle (bufferPool
           (client (postJSON (H := demo) "/empty" "{}" (fresh_mem demo_client)).2)) ∧
    bufs (postJSON (H := demo) "/empty" "{}" (fresh_mem demo_client)).2 !! b
      = Some "" ∧
    pool_cap (bufferPool
       (client (postJSON (H := demo) "/empty" "{}" (fresh_mem demo_client)).2))
      = pool_cap (bufferPool (client (fresh_mem demo_client))) ∧
    (length (pool_idle (bufferPool
       (client (postJSON (H := demo) "/empty" "{}" (fresh_mem demo_client)).2)))
       ≤ pool_cap (bufferPool (client (fresh_mem demo_client))))%nat.
Proof.
  split; [vm_compute; lia|]. split; [vm_compute; lia|].
  apply (postJSON_releases_buffer (H := demo) "/empty" "{}"
           (fresh_mem demo_client)); vm_compute; lia.
Defined.

Lemma non_2xx_is_status_error_witness :
  ¬ (200 ≤ 404 ≤ 299)%Z ∧
  (postJSON (H := demo) "/nowhere" "{}" (fresh_mem demo_client)).1
    = (Some "http.Status: 404 Not Found", None) ∧
  (getJSON (H := demo) "/nowhere" (fresh_mem demo_client)).1
    = (Some "http.Status: 404 Not Found", None).
Proof.
  assert (¬ (200 ≤ 404 ≤ 299)%Z) as Hst by lia.
  split; [exact Hst|].
  destruct (non_2xx_is_status_error (H := demo) "/nowhere" "{}"
              (http.mkResponse 404 "404 Not Found" "")
              (fresh_mem demo_client) Hst) as [Hpost Hget].
  split.
  - exact (proj1 (Hpost "{}" eq_refl eq_refl)).
  - exact (proj1 (Hget eq_refl)).
Defined.

(** * Properties of the credential cache *)

(** Take a step apart: which rule fired, and what it needs. *)
Ltac exec_cases Hstep :=
  unfold exec in Hstep;
  repeat match type of Hstep with
         | context [match ?x with _ => _ end] =>
             destruct x eqn:?; simplify_eq; try done
         end;
  simplify_eq.

Section CacheFacts.
Context `{Collaborators}.

(** *** Counting read locks *)

Lemma rlocks_app rs r :
  rlocks (rs ++ [r]) = (rlocks rs + (if holds_rlock r then 1 else 0))%nat.
Proof. induction rs as [|r0 rs IH]; simpl; [lia | rewrite IH; lia]. Qed.

Lemma rlocks_insert rs i r r1 :
  rs !! i = Some r →
  (rlocks (<[i := r1]> rs) + (if holds_rlock r then 1 else 0))%nat
  = (rlocks rs + (if holds_rlock r1 then 1 else 0))%nat.
Proof.
  revert i. induction rs as [|r0 rs IH]; intros [|i] Hi; simplify_eq/=.
  - lia.
  - specialize (IH i Hi). lia.
Qed.

Lemma rlocks_pos rs i r :
  rs !! i = Some r → holds_rlock r = true → (0 < rlocks rs)%nat.
Proof.
  revert i. induction rs as [|r0 rs IH]; intros [|i] Hi Hr; simplify_eq/=.
  - rewrite Hr. lia.
  - specialize (IH i Hi Hr). lia.
Qed.

(** *** Runs *)

Lemma run_app tr1 tr2 s :
  run (tr1 ++ tr2) s = s1 ← run tr1 s; run tr2 s1.
Proof.
  revert s. induction tr1 as [|l tr1 IH]; intros s; simpl; [done|].
  destruct (exec l s); simpl; auto.
Qed.

Lemma reachable_run a b h tr s s1 :
  reachable a b h s → run tr s = Some s1 → reachable a b h s1.
Proof.
  revert s. induction tr as [|l tr IH]; intros s Hs Hrun; simplify_eq/=.
  - done.
  - destruct (exec l s) as [s0|] eqn:Hl; simplify_eq/=.
    eapply IH; [|done]. by eapply reach_step.
Qed.

(** *** The lock protocol *)

Lemma Inv_NewClient a b h : Inv (NewClient a b h).2.
Proof.
  split; simpl; auto.
  intros i r Hi. by rewrite lookup_nil in Hi.
Qed.

Lemma readers_insert (P : reader_pc → Prop) (rs : list reader_pc) (i : nat) r1 :
  (∀ j r, rs !! j = Some r → P r) → P r1 →
  ∀ j r, <[i := r1]> rs !! j = Some r → P r.
Proof.
  intros Hall H1 j r Hj.
  apply list_lookup_insert_Some in Hj as [(-> & -> & _)|[_ Hj]]; eauto.
Qed.

Lemma readers_snoc (P : reader_pc → Prop) (rs : list reader_pc) r1 :
  (∀ j r, rs !! j = Some r → P r) → P r1 →
  ∀ j r, (rs ++ [r1]) !! j = Some r → P r.
Proof.
  intros Hall H1 j r Hj.
  apply lookup_snoc_Some in Hj as [[_ Hj]|[_ <-]]; eauto.
Qed.

Lemma rlocks_zero_no_reader rs i r :
  rlocks rs = 0%nat → rs !! i = Some r → holds_rlock r = false.
Proof.
  intros Hz Hi. destruct (holds_rlock r) eqn:Hr; [|done].
  pose proof (rlocks_pos _ _ _ Hi Hr). lia.
Qed.

(** How an update of one reader changes the count. *)
Ltac relock :=
  match goal with
  | Hi : readers ?s !! ?i = Some _
    |- context [rlocks (<[?i := ?r1]> (readers ?s))] =>
      let E := fresh in
      pose proof (rlocks_insert _ _ _ r1 Hi) as E; simpl in E
  end.

Lemma Inv_step s l s1 : Inv s → exec l s = Some s1 → Inv s1.
Proof.
  intros [Hw Hr Hx Hq Hp Hrd] Hstep.
  unfold cur_mutex, cur_token, cur_err in *.
  destruct l; exec_cases Hstep;
    (split; unfold cur_mutex, cur_token, cur_err; simpl in *; auto; try lia).
  - (* LWriteToken: no reader holds a token while the writer is in *)
    intros i r0 Hi. specialize (Hrd i r0 Hi).
    pose proof (rlocks_zero_no_reader _ _ _ (Hx Hw) Hi).
    by destruct r0.
  - (* LUnlock: the pair written becomes the last pair stored *)
    intros _. destruct Hp as [-> ->].
    rewrite lookup_app_r, Nat.sub_diag, length_app by lia. simpl.
    split_and!; [done | done | lia].
  - (* LUnlock: earlier pairs stay where they were *)
    intros i r0 Hi. specialize (Hrd i r0 Hi).
    pose proof (rlocks_zero_no_reader _ _ _ (Hx Hw) Hi).
    destruct r0; try done; destruct Hrd as [-> Hn]; split; auto;
      by apply lookup_app_l_Some.
  - (* LRLock *) relock. lia.
  - destruct_and?. congruence.
  - eapply readers_insert; [exact Hrd | done].
  - (* LReadToken *) relock. lia.
  - intros Hwr. relock. specialize (Hx Hwr). lia.
  - eapply readers_insert; [exact Hrd | done].
  - (* LReadErr *) relock. lia.
  - intros Hwr. relock. specialize (Hx Hwr). lia.
  - (* LReadErr: the reader holds the lock, so no write is under way *)
    eapply readers_insert; [exact Hrd|].
    destruct (Hrd _ _ Heqo) as [-> ->].
    destruct (in_write_section (loop s)) eqn:Hsec.
    + pose proof (rlocks_pos _ _ _ Heqo eq_refl). specialize (Hx Hw). lia.
    + destruct (Hq eq_refl) as (Hby & Hpub & _). by rewrite <- Hby.
  - (* LRUnlock *)
    pose proof (rlocks_pos _ _ _ Heqo eq_refl). relock. lia.
  - intros Hwr. relock. specialize (Hx Hwr). lia.
  - eapply readers_insert; [exact Hrd|]. exact (Hrd _ _ Heqo).
  - (* LCallToken *) rewrite rlocks_app. simpl. lia.
  - intros Hwr. rewrite rlocks_app. simpl. specialize (Hx Hwr). lia.
  - eapply readers_snoc; [exact Hrd | done].
Qed.

Lemma Inv_reachable a b h s : reachable a b h s → Inv s.
Proof.
  induction 1 as [|s l s1 _ IH Hstep]; [apply Inv_NewClient|].
  by eapply Inv_step.
Qed.

(** *** Reading the token *)

(** With the write lock neither held nor requested, a caller of
    [Token] runs to its return on its own steps, and returns the two
    fields as they are. *)
Lemma Token_runs s i :
  readers s !! i = Some RCall →
  writer (cur_mutex s) = false →
  lock_pending (loop s) = false →
  ∃ s1, run (Token_steps i) s = Some s1 ∧
        readers s1 !! i
          = Some (RDone (cur_token s) (cur_err s) (tok_by s) (err_by s)) ∧
        attempts s1 = attempts s ∧ loop s1 = loop s ∧
        cur_token s1 = cur_token s ∧ cur_err s1 = cur_err s ∧
        published s1 = published s ∧ forcers s1 = forcers s.
Proof.
  intros Hi Hw Hp. unfold cur_mutex in Hw.
  pose proof (lookup_lt_Some _ _ _ Hi) as Hlt.
  unfold Token_steps, run, exec. simpl.
  rewrite Hi. simpl. rewrite decide_True by done. simpl.
  rewrite list_lookup_insert_eq by done. simpl.
  rewrite list_lookup_insert_eq by (by rewrite length_insert). simpl.
  rewrite list_lookup_insert_eq by (by rewrite !length_insert). simpl.
  eexists. split; [done|]. simpl.
  rewrite list_lookup_insert_eq by (by rewrite !length_insert).
  done.
Qed.

Lemma quiet_last s :
  Inv s → in_write_section (loop s) = false →
  last (published s) = Some (cur_token s, cur_err s).
Proof.
  intros HI Hsec. destruct (inv_quiet _ HI Hsec) as (_ & Hpub & Hlen).
  rewrite last_lookup, <- Hlen. exact Hpub.
Qed.

(** C3. The two fields of the credential state that a reader can see
    always come from one refresh: whenever the write lock is free,
    [token] and [err] were written by the same refresh and are the
    pair that refresh stored; no reader is inside while a write is
    under way; and what a finished call of [Token] returns is a pair
    stored together by a single refresh. *)
Theorem reads_are_never_torn a b h s :
  reachable a b h s →
  (in_write_section (loop s) = false →
     tok_by s = err_by s ∧
     published s !! tok_by s = Some (cur_token s, cur_err s)) ∧
  (∀ i r, readers s !! i = Some r → holds_rlock r = true →
     in_write_section (loop s) = false) ∧
  (∀ i t e tby eby,
     readers s !! i = Some (RDone t e tby eby) →
     tby = eby ∧ published s !! tby = Some (t, e)).
Proof.
  intros Hs. pose proof (Inv_reachable _ _ _ _ Hs) as HI.
  split_and!.
  - intros Hsec. destruct (inv_quiet _ HI Hsec) as (? & ? & _). done.
  - intros i r Hi Hr.
    destruct (in_write_section (loop s)) eqn:Hsec; [|done].
    pose proof (rlocks_pos _ _ _ Hi Hr).
    pose proof (inv_excl _ HI) as Hx. rewrite (inv_writer _ HI) in Hx.
    specialize (Hx Hsec). lia.
  - intros i t e tby eby Hi. exact (inv_reader _ HI _ _ Hi).
Qed.

(** *** Waiting for the store *)

Lemma Inv_run tr s s1 : Inv s → run tr s = Some s1 → Inv s1.
Proof.
  revert s. induction tr as [|l tr IH]; intros s HI Hrun; simplify_eq/=.
  - done.
  - destruct (exec l s) as [s0|] eqn:Hl; simplify_eq/=.
    eapply IH; [|done]. by eapply Inv_step.
Qed.

Lemma rlocks_pos_inv rs :
  (0 < rlocks rs)%nat → ∃ i r, rs !! i = Some r ∧ holds_rlock r = true.
Proof.
  induction rs as [|r0 rs IH]; simpl; [lia|]. intros Hpos.
  destruct (holds_rlock r0) eqn:Hr0.
  - by exists 0%nat, r0.
  - destruct IH as (i & r & Hi & Hr); [lia|]. by exists (S i), r.
Qed.

(** A reader that is inside leaves on its own steps. *)
Lemma finish_one s i r :
  readers s !! i = Some r → holds_rlock r = true →
  ∃ s1 t e n k,
    run (finish_steps i r) s = Some s1 ∧
    readers s1 = <[i := RDone t e n k]> (readers s) ∧
    loop s1 = loop s ∧ attempts s1 = attempts s ∧ forcers s1 = forcers s.
Proof.
  intros Hi Hr. pose proof (lookup_lt_Some _ _ _ Hi) as Hlt.
  destruct r; try discriminate; unfold finish_steps, run, exec; simpl;
    rewrite Hi; simpl;
    rewrite ?list_lookup_insert_eq by (by rewrite ?length_insert); simpl;
    rewrite ?list_lookup_insert_eq by (by rewrite ?length_insert); simpl;
    eexists _, _, _, _, _; (split; [done|]); simpl;
    rewrite ?list_insert_insert_eq; done.
Qed.

(** All readers that are inside leave, in at most three steps each. *)
Lemma readers_leave n s :
  rlocks (readers s) = n →
  ∃ tr s1,
    run tr s = Some s1 ∧ Forall (λ l, is_wait l = true) tr ∧
    (length tr ≤ 3 * n)%nat ∧
    rlocks (readers s1) = 0%nat ∧
    loop s1 = loop s ∧ attempts s1 = attempts s ∧ forcers s1 = forcers s ∧
    ∀ j, readers s !! j = Some RCall → readers s1 !! j = Some RCall.
Proof.
  revert s. induction n as [|n IH]; intros s Hn.
  - exists [], s. split_and!; auto.
  - destruct (rlocks_pos_inv (readers s)) as (i & r & Hi & Hr); [lia|].
    destruct (finish_one s i r Hi Hr)
      as (s0 & t & e & m & k & Hrun0 & Hrd0 & Hl0 & Ha0 & Hf0).
    pose proof (rlocks_insert _ _ _ (RDone t e m k) Hi) as Hcount.
    rewrite Hr in Hcount. simpl in Hcount.
    destruct (IH s0) as (tr & s1 & Hrun & Htr & Hlen & Hz & Hl & Ha & Hf & Hkeep).
    { rewrite Hrd0. lia. }
    exists (finish_steps i r ++ tr), s1. split_and!.
    + rewrite run_app, Hrun0. exact Hrun.
    + apply Forall_app. split; [|done].
      destruct r; simpl; repeat constructor.
    + rewrite length_app.
      assert (length (finish_steps i r) ≤ 3)%nat by (destruct r; simpl; lia).
      lia.
    + done.
    + congruence.
    + congruence.
    + congruence.
    + intros j Hj. apply Hkeep. rewrite Hrd0.
      rewrite list_lookup_insert_ne; [done|].
      intros ->. rewrite Hi in Hj. by simplify_eq.
Qed.

(** The loop, once it holds an answer, gets to store it: the readers
    inside leave, the loop takes the lock, writes both fields and
    releases it. No step on the way calls the authority. *)
Lemma store_completes s w r d :
  Inv s → loop s = Some (Publishing w r d) →
  ∃ pre s1,
    run pre s = Some s1 ∧ Forall (λ l, is_wait l = true) pre ∧
    (length pre ≤ 3 * rlocks (readers s) + 4)%nat ∧
    loop s1 = Some (Idle d) ∧
    attempts s1 = attempts s ∧ forcers s1 = forcers s ∧
    ∀ j, readers s !! j = Some RCall → readers s1 !! j = Some RCall.
Proof.
  intros HI Hloop. destruct w.
  - destruct (readers_leave _ s eq_refl)
      as (tr & s0 & Hrun0 & Htr & Hlen & Hz & Hl0 & Ha0 & Hf0 & Hkeep).
    pose proof (Inv_run _ _ _ HI Hrun0) as HI0.
    pose proof (inv_writer _ HI0) as Hw0.
    pose proof (inv_readers _ HI0) as Hr0.
    rewrite Hl0, Hloop in Hw0. rewrite Hz in Hr0.
    unfold cur_mutex in *. simpl in Hw0.
    exists (tr ++ [LLock; LWriteToken; LWriteErr; LUnlock]),
      (after [LLock; LWriteToken; LWriteErr; LUnlock] s0).
    unfold after. rewrite run_app, Hrun0. simpl.
    rewrite Hl0, Hloop. simpl. rewrite decide_True by done. simpl.
    split_and!; auto.
    + apply Forall_app. split; [done | repeat constructor].
    + rewrite length_app. simpl. lia.
  - exists [LWriteToken; LWriteErr; LUnlock],
      (after [LWriteToken; LWriteErr; LUnlock] s).
    unfold after. simpl. rewrite Hloop. simpl.
    split_and!; auto; first [lia | repeat constructor].
  - exists [LWriteErr; LUnlock], (after [LWriteErr; LUnlock] s).
    unfold after. simpl. rewrite Hloop. simpl.
    split_and!; auto; first [lia | repeat constructor].
  - exists [LUnlock], (after [LUnlock] s).
    unfold after. simpl. rewrite Hloop. simpl.
    split_and!; auto; first [lia | repeat constructor].
Qed.

(** *** What the history holds *)

Lemma pinned_NewClient a b h : pinned a b (NewClient a b h).2.
Proof.
  unfold pinned. simpl. split_and!; auto; try lia.
  intros [|k] t e Hk; simplify_eq/=. done.
Qed.

Lemma pinned_step a b s l s1 :
  pinned a b s → exec l s = Some s1 → pinned a b s1.
Proof.
  intros (Ha & Hb & Hpos & Hpub & Hloop) Hstep.
  unfold pinned, cur_err in *.
  destruct l; exec_cases Hstep; simpl in *;
    try (destruct_and?; split_and!; auto; try lia; done).
  (* LUnlock: the pair stored is that of the last fetch *)
  destruct Hloop as (Hlen & Hr & He). specialize (He eq_refl).
  rewrite length_app. simpl.
  split_and!; auto; try lia.
  intros k t e Hk.
  apply lookup_snoc_Some in Hk as [[_ Hk]|[Hk ?]]; [by eapply Hpub|].
  simplify_eq. rewrite He. f_equal. f_equal. lia.
Qed.

Lemma pinned_reachable a b h s : reachable a b h s → pinned a b s.
Proof.
  induction 1; eauto using pinned_NewClient, pinned_step.
Qed.

(** Outside a store, the error the client holds is that of the last
    fetch made. *)
Lemma quiet_err a b s :
  Inv s → pinned a b s → storing (loop s) = false →
  cur_err s = auth_err (Authenticate a b (pred (attempts s))).
Proof.
  intros HI (_ & _ & Hpos & Hpub & Hloop) Hst.
  assert (in_write_section (loop s) = false) as Hsec
    by (by destruct (loop s) as [[| |[]]|]).
  destruct (inv_quiet _ HI Hsec) as (_ & Hlook & Hlen).
  assert (length (published s) = S (attempts s)) as Hl
    by (by destruct (loop s) as [[| |]|]).
  assert (tok_by s = S (pred (attempts s))) as Hby by lia.
  rewrite Hby in Hlook. by apply (Hpub _ _ _ Hlook).
Qed.

(** C6, as the code has it. A call of [Token] does not wait for the
    fetch of a refresh: while the loop is idle or its call of the
    authority is in flight, the caller runs to its return on its own
    four steps. It can be held back only once the loop holds an answer
    and has asked for the write lock: then the readers inside leave and
    the loop stores the answer, in a bounded number of steps none of
    which calls the authority, and the caller runs. The call makes no
    fetch of its own, and what it returns is the last pair stored, whose
    error is the error of the last fetch made: if that fetch failed, the
    call returns its error. *)
Theorem Token_does_not_wait_for_fetch a b h s i :
  reachable a b h s →
  readers s !! i = Some RCall →
  ∃ pre s1 s2,
    Forall (λ l, is_wait l = true) pre ∧
    (length pre ≤ 3 * rlocks (readers s) + 4)%nat ∧
    (storing (loop s) = false → pre = []) ∧
    run pre s = Some s1 ∧
    run (Token_steps i) s1 = Some s2 ∧
    readers s2 !! i
      = Some (RDone (cur_token s1) (cur_err s1) (tok_by s1) (err_by s1)) ∧
    last (published s1) = Some (cur_token s1, cur_err s1) ∧
    cur_err s1 = auth_err (Authenticate a b (pred (attempts s1))) ∧
    published s2 = published s1 ∧
    attempts s1 = attempts s ∧
    attempts s2 = attempts s.
Proof.
  intros Hs Hi. pose proof (Inv_reachable _ _ _ _ Hs) as HI.
  assert (∃ pre s1,
            Forall (λ l, is_wait l = true) pre ∧
            (length pre ≤ 3 * rlocks (readers s) + 4)%nat ∧
            (storing (loop s) = false → pre = []) ∧
            run pre s = Some s1 ∧ storing (loop s1) = false ∧
            attempts s1 = attempts s ∧ readers s1 !! i = Some RCall)
    as (pre & s1 & Hpre & Hlen & Hnil & Hrun & Hst1 & Hat1 & Hi1).
  { destruct (loop s) as [[d|f|w r d]|] eqn:Hloop.
    - exists [], s. rewrite Hloop.
      split_and!; auto; try (simpl; lia); try done.
    - exists [], s. rewrite Hloop.
      split_and!; auto; try (simpl; lia); try done.
    - destruct (store_completes s w r d HI Hloop)
        as (pre & s1 & Hrun & Hpre & Hlen & Hl1 & Ha1 & _ & Hkeep).
      exists pre, s1. split_and!; auto; try done. by rewrite Hl1.
    - exists [], s. rewrite Hloop.
      split_and!; auto; try (simpl; lia); try done. }
  assert (reachable a b h s1) as Hs1 by (by eapply reachable_run).
  pose proof (Inv_reachable _ _ _ _ Hs1) as HI1.
  pose proof (pinned_reachable _ _ _ _ Hs1) as HP1.
  assert (in_write_section (loop s1) = false) as Hsec1
    by (by destruct (loop s1) as [[| |[]]|]).
  destruct (Token_runs s1 i Hi1)
    as (s2 & Hrun2 & Hdone & Hat2 & _ & _ & _ & Hpub & _).
  { by rewrite (inv_writer _ HI1). }
  { by destruct (loop s1) as [[| |[]]|]. }
  exists pre, s1, s2. split_and!; auto.
  - by apply quiet_last.
  - by eapply quiet_err.
  - congruence.
Qed.

(** *** The schedule *)








(** The loop's refresh stores exactly what [TokenRefresh] stores. *)
Lemma refresh_steps_TokenRefresh s f s1 :
  loop s = Some (Refreshing f) →
  run (refresh_steps (attempts s)) s = Some s1 →
  cur_token s1 = cur_token (TokenRefresh s) ∧
  cur_err s1 = cur_err (TokenRefresh s) ∧
  published s1 = published (TokenRefresh s) ∧
  attempts s1 = attempts (TokenRefresh s) ∧
  tok_by s1 = tok_by (TokenRefresh s) ∧
  err_by s1 = err_by (TokenRefresh s).
Proof.
  intros Hl Hrun. unfold refresh_steps in Hrun. simpl in Hrun.
  rewrite Hl in Hrun. simpl in Hrun.
  rewrite decide_True in Hrun by done. simpl in Hrun.
  case_decide; simplify_eq/=. done.
Qed.


(** *** A refresh that fails *)








(** *** The constructor *)

Section ValidAuthority.
Variables a b : string.
(** The authority never reports success with an empty token. *)
Hypothesis valid :
  ∀ n, auth_err (Authenticate a b n) = None →
       auth_token (Authenticate a b n) ≠ "".

Lemma populated_NewClient h : populated a b (NewClient a b h).2.
Proof.
  unfold populated, uninitialized. simpl.
  change (fetch (go_tokenService (alloc_Client a b h)))
    with (Authenticate a b 0).
  split_and!; auto; [|done].
  unfold next_token. intros [Ht He]. rewrite He in Ht.
  by apply (valid 0%nat).
Qed.

Lemma populated_step s l s1 :
  populated a b s → exec l s = Some s1 → populated a b s1.
Proof.
  intros (Ha & Hb & Hne & Hpub) Hstep.
  unfold populated, uninitialized, cur_token in *.
  destruct l; exec_cases Hstep; simpl in *;
    (split_and!; [done | done | try done | try (intros; simplify_eq; eauto; done)]).
  - (* LLock *)
    intros w r0 d ?. simplify_eq.
    destruct (Hpub _ _ _ eq_refl) as [Hn _]. by split.
  - (* LWriteToken: a success stores a token that is not empty *)
    destruct (Hpub _ _ _ eq_refl) as [[n ->] _].
    unfold next_token. intros [Ht He].
    destruct (auth_err (Authenticate _ _ n)) eqn:Hr; [by apply Hne|].
    by apply (valid n).
  - intros w r0 d ?. simplify_eq.
    destruct (Hpub _ _ _ eq_refl) as [[n ->] _].
    split; [eauto|]. intros _ Hok. unfold next_token. rewrite Hok.
    by apply valid.
  - (* LWriteErr *)
    destruct (Hpub _ _ _ eq_refl) as [_ Htok].
    intros [Ht He]. by apply Htok.
  - intros w r0 d ?. simplify_eq.
    destruct (Hpub _ _ _ eq_refl) as [Hn _]. by split.
Qed.

Lemma populated_reachable h s : reachable a b h s → populated a b s.
Proof.
  induction 1; eauto using populated_NewClient, populated_step.
Qed.

End ValidAuthority.

(** C1, as the code has it. [NewClient] makes one call of the
    authority itself, before it returns: in the system it leaves, one
    fetch has been made, the loop is waiting and has made none, and
    what the fetch answered is stored: the token granted and no error,
    or no token and the error of the fetch. The cache returned is in
    the zero state exactly when the authority reported success with an
    empty token. If the authority never does that, the cache is not in
    the zero state when [NewClient] returns, and never is afterwards. *)
Theorem NewClient_fetches_before_returning a b h :
  ∃ c,
    (NewClient a b h).1 = Some c ∧ cl (NewClient a b h).2 = c ∧
    attempts (NewClient a b h).2 = 1%nat ∧
    (∃ d, loop (NewClient a b h).2 = Some (Idle d)) ∧
    published (NewClient a b h).2
      = [("", None); (token (currentToken c), err (currentToken c))] ∧
    ((token (currentToken c) = auth_token (Authenticate a b 0) ∧
      err (currentToken c) = None ∧
      auth_err (Authenticate a b 0) = None) ∨
     (∃ e, token (currentToken c) = "" ∧
           err (currentToken c) = Some e ∧
           auth_err (Authenticate a b 0) = Some e)) ∧
    (uninitialized (currentToken c) ↔
       auth_err (Authenticate a b 0) = None ∧
       auth_token (Authenticate a b 0) = "") ∧
    ((∀ n, auth_err (Authenticate a b n) = None →
           auth_token (Authenticate a b n) ≠ "") →
     ¬ uninitialized (currentToken c) ∧
     ∀ s, reachable a b h s → ¬ uninitialized (currentToken (cl s))).
Proof.
  eexists. split; [reflexivity|]. split; [reflexivity|].
  split_and!; try reflexivity.
  - simpl. eauto.
  - simpl. change (fetch (go_tokenService (alloc_Client a b h)))
      with (Authenticate a b 0).
    unfold next_token.
    destruct (auth_err (Authenticate a b 0)) as [e|] eqn:He; [eauto|].
    left. split_and!; auto.
  - unfold uninitialized. simpl.
    change (fetch (go_tokenService (alloc_Client a b h)))
      with (Authenticate a b 0).
    unfold next_token.
    destruct (auth_err (Authenticate a b 0)) as [e|] eqn:He.
    + split; [intros [_ ?] | intros [? _]]; discriminate.
    + split; [intros [? _] | intros [_ ?]]; auto.
  - intros valid. split.
    + apply (populated_NewClient a b valid h).
    + intros s Hs. apply (populated_reachable a b valid h s Hs).
Qed.

(** C2, as the code has it. [NewClient] has one result, the client,
    and returns it whatever the first fetch did. When that fetch
    fails, [NewClient] does not fail: the error is not handed to the
    caller, it is kept in the [err] field of the client returned. *)
Theorem NewClient_records_failed_fetch a b h e :
  auth_err (Authenticate a b 0) = Some e →
  ∃ c, (NewClient a b h).1 = Some c ∧
       cl (NewClient a b h).2 = c ∧
       err (currentToken c) = Some e.
Proof.
  intros He. eexists. split; [reflexivity|]. split; [reflexivity|].
  simpl. exact He.
Qed.

(** *** The configuration *)








End CacheFacts.

(** ** The cache at work *)

Lemma reachable_after `{Collaborators} a b h tr :
  is_Some (run tr (NewClient a b h).2) →
  reachable a b h (after tr (NewClient a b h).2).
Proof.
  intros [s Hs]. unfold after. rewrite Hs. simpl.
  eapply reachable_run; [apply reach_init | exact Hs].
Qed.

(** The authority grants ["tok1"] at construction: a call of [Token]
    right away returns [("tok1", nil)]. *)
Example Token_after_construction :
  readers (after (H := demo) (LCallToken :: Token_steps 0) demo_sys) !! 0%nat
  = Some (RDone "tok1" None 1 1).
Proof. vm_compute. reflexivity. Qed.

(** The next refresh fails: a call of [Token] after it returns
    [("tok1", ErrNetwork)], and the loop waits for one minute. *)
Example Token_after_failed_refresh :
  let s := after (H := demo) (demo_failed_refresh ++ LCallToken :: Token_steps 0)
             demo_sys in
  readers s !! 0%nat = Some (RDone "tok1" (Some "ErrNetwork") 2 2) ∧
  loop s = Some (Idle one_minute) ∧
  published s = [("", None); ("tok1", None); ("tok1", Some "ErrNetwork")].
Proof. vm_compute. done. Qed.

(** A reader that holds the read lock keeps the loop out: the store
    cannot begin between its two reads. *)
Example Lock_waits_for_reader :
  let s := after (H := demo)
             [LCallToken; LRLock 0; LReadToken 0; LTimer demo_interval; LFetch 1]
             demo_sys in
  loop s = Some (Publishing WaitLock (mkAuth "" 0 (Some "ErrNetwork")) one_minute) ∧
  exec (H := demo) LLock s = None ∧
  is_Some (exec (H := demo) (LReadErr 0) s).
Proof. vm_compute. eauto. Qed.

(** And while the loop is storing, a reader cannot enter. *)
Example RLock_waits_for_store :
  let s := after (H := demo)
             [LCallToken; LTimer demo_interval; LFetch 1; LLock; LWriteToken]
             demo_sys in
  cur_token s = "tok1" ∧ cur_err s = None ∧
  exec (H := demo) (LRLock 0) s = None.
Proof. vm_compute. done. Qed.

(** The overtaken reader returns the pair of the first refresh, the
    reader after it the pair of the second. *)
Example overlap_reads :
  let s := after (H := demo) demo_overlap demo_sys in
  readers s = [RDone "tok1" None 1 1; RDone "tok1" (Some "ErrNetwork") 2 2].
Proof. vm_compute. reflexivity. Qed.

(** After two requests the timer fires with the interval of the second
    and with no other. *)
Example second_request_governs :
  let s := after (H := demo) demo_two_requests demo_sys in
  loop s = Some (Idle one_minute) ∧
  is_Some (exec (H := demo) (LTimer one_minute) s) ∧
  exec (H := demo) (LTimer five_minutes) s = None.
Proof. vm_compute. eauto. Qed.

(** A request cannot be handed over while the loop is refreshing. *)
Example handoff_waits_for_idle :
  exec (H := demo) (LHandoff 0 five_minutes)
    (after (H := demo) [LCallForce five_minutes; LTimer demo_interval] demo_sys)
  = None.
Proof. vm_compute. reflexivity. Qed.

(** Once the loop has asked for the write lock, a new reader is kept
    out although only readers are inside; the reader inside leaves,
    the loop stores, and then the new reader reads the new pair. *)
Example RLock_waits_for_pending_Lock :
  exec (H := demo) (LRLock 1) demo_lock_pending = None ∧
  readers (after (H := demo)
             ([LReadErr 0; LRUnlock 0; LLock; LWriteToken; LWriteErr; LUnlock]
                ++ Token_steps 1) demo_lock_pending)
    = [RDone "tok1" None 1 1; RDone "tok1" (Some "ErrNetwork") 2 2].
Proof. vm_compute. done. Qed.

(** C1 as stated fails: when the authority reports success and grants
    an empty token, the cache [NewClient] returns is in the zero
    state. *)
Lemma NewClient_can_return_uninitialized :
  ¬ (∀ c, (NewClient (H := blank) "wx1" "s3cret" None).1 = Some c →
          ¬ uninitialized (currentToken c)).
Proof. intros Hclaim. apply (Hclaim _ eq_refl). by split. Qed.

Lemma demo_valid n :
  auth_err (Authenticate (Collaborators := demo) "wx1" "s3cret" n) = None →
  auth_token (Authenticate (Collaborators := demo) "wx1" "s3cret" n) ≠ "".
Proof. destruct n; simpl; [discriminate | intros ?; discriminate]. Defined.

Lemma NewClient_fetches_before_returning_witness :
  (∀ n, auth_err (Authenticate (Collaborators := demo) "wx1" "s3cret" n) = None →
        auth_token (Authenticate (Collaborators := demo) "wx1" "s3cret" n) ≠ "") ∧
  ∃ c, (NewClient (H := demo) "wx1" "s3cret" None).1 = Some c ∧
       token (currentToken c) = "tok1" ∧ err (currentToken c) = None ∧
       ¬ uninitialized (currentToken c).
Proof.
  split; [exact demo_valid|].
  destruct (NewClient_fetches_before_returning (H := demo)
              "wx1" "s3cret" None)
    as (c & Hc & Hcl & _ & _ & _ & _ & _ & Hne).
  exists c. subst c. split; [exact Hc|]. split; [reflexivity|].
  split; [reflexivity | exact (proj1 (Hne demo_valid))].
Defined.

(** C2 as stated fails: with the authority unreachable, the first
    fetch fails and [NewClient] returns a client all the same. *)
Lemma NewClient_does_not_fail_on_failed_fetch :
  ¬ (∀ e, auth_err (Authenticate (Collaborators := down) "wx1" "s3cret" 0)
            = Some e →
          (NewClient (H := down) "wx1" "s3cret" None).1 = None).
Proof. intros Hclaim. specialize (Hclaim "ErrNetwork" eq_refl). discriminate. Qed.

Lemma NewClient_records_failed_fetch_witness :
  auth_err (Authenticate (Collaborators := down) "wx1" "s3cret" 0)
    = Some "ErrNetwork" ∧
  ∃ c, (NewClient (H := down) "wx1" "s3cret" None).1 = Some c ∧
       cl (NewClient (H := down) "wx1" "s3cret" None).2 = c ∧
       err (currentToken c) = Some "ErrNetwork".
Proof.
  split; [reflexivity|].
  exact (NewClient_records_failed_fetch (H := down)
           "wx1" "s3cret" None "ErrNetwork" eq_refl).
Defined.


Lemma reads_are_never_torn_witness :
  reachable (H := demo) "wx1" "s3cret" None
    (after (H := demo) demo_overlap demo_sys) ∧
  readers (after (H := demo) demo_overlap demo_sys) !! 0%nat
    = Some (RDone "tok1" None 1 1) ∧
  published (after (H := demo) demo_overlap demo_sys) !! 1%nat
    = Some ("tok1", None).
Proof.
  assert (reachable (H := demo) "wx1" "s3cret" None
            (after (H := demo) demo_overlap demo_sys)) as Hs.
  { apply (reachable_after (H := demo)). vm_compute. eauto. }
  split; [exact Hs|]. split; [reflexivity|].
  destruct (reads_are_never_torn (H := demo) _ _ _ _ Hs) as (_ & _ & Hdone).
  exact (proj2 (Hdone 0%nat "tok1" None 1%nat 1%nat eq_refl)).
Defined.



(** C6 as stated fails: while the loop holds the write lock to store
    an answer, a caller of [Token] cannot take the read lock. *)
Lemma Token_waits_for_store :
  ¬ (∀ s i,
       reachable (H := demo) "wx1" "s3cret" None s →
       readers s !! i = Some RCall →
       is_Some (run (H := demo) (Token_steps i) s)).
Proof.
  intros Hclaim.
  destruct (Hclaim demo_storing 0%nat) as [s2 Hs2].
  - apply (reachable_after (H := demo)). vm_compute. eauto.
  - reflexivity.
  - vm_compute in Hs2. discriminate.
Qed.

Lemma Token_does_not_wait_for_fetch_witness :
  reachable (H := demo) "wx1" "s3cret" None demo_refetching ∧
  readers demo_refetching !! 0%nat = Some RCall ∧
  loop demo_refetching = Some (Refreshing None) ∧
  ∃ s2, run (H := demo) (Token_steps 0) demo_refetching = Some s2 ∧
        readers s2 !! 0%nat = Some (RDone "tok1" (Some "ErrNetwork") 2 2) ∧
        attempts s2 = attempts demo_refetching.
Proof.
  assert (reachable (H := demo) "wx1" "s3cret" None demo_refetching) as Hs.
  { apply (reachable_after (H := demo)). vm_compute. eauto. }
  split; [exact Hs|]. split; [reflexivity|]. split; [reflexivity|].
  destruct (Token_does_not_wait_for_fetch (H := demo) _ _ _ _ 0%nat Hs eq_refl)
    as (pre & s1 & s2 & _ & _ & Hpre & Hrun1 & Hrun2 & Hdone & _ & _ & _ & _ & Hat).
  rewrite (Hpre eq_refl) in Hrun1. simpl in Hrun1.
  injection Hrun1 as <-. exists s2.
  split; [exact Hrun2|]. split; [exact Hdone | exact Hat].
Defined.

(** * More on the request helpers *)

Section HelperPaths.
Context `{Collaborators}.

Lemma events_since_app m m1 evs :
  log m1 = log m ++ evs → events_since m m1 = evs.
Proof. intros Hl. unfold events_since. by rewrite Hl, drop_app_length. Qed.

(** *** The ways through [postJSON] *)

(** The content type [postJSON] sends. *)
Local Abbreviation json_type := "application/json; charset=utf-8" (only parsing).

Lemma postJSON_path_encode_error _url request m e :
  json_Encode request = inr e →
  (postJSON _url request m).1 = (Some e, None) ∧
  events_since m (postJSON _url request m).2
    = [EvGetBuffer (getBufferFromPool m).1; EvEncode;
       EvPutBuffer (getBufferFromPool m).1].
Proof.
  intros Henc. rewrite postJSON_unfold.
  destruct (getBufferFromPool_frame m) as [Hl0 _].
  destruct (getBufferFromPool m) as [b m0]. simpl in *.
  unfold rest_of_postJSON, Encoder_Encode, mbind, M_bind, mret, M_ret.
  rewrite Henc. simpl. split; [done|].
  apply events_since_app. rewrite Hl0, <- !app_assoc. done.
Qed.

Lemma postJSON_path_transport_error _url request m bytes e :
  json_Encode request = inl bytes →
  http.Post (httpClient (client m)) _url json_type (postJSON_body request m)
    = inr e →
  (postJSON _url request m).1 = (Some e, None) ∧
  events_since m (postJSON _url request m).2
    = [EvGetBuffer (getBufferFromPool m).1; EvEncode;
       EvPost _url json_type (postJSON_body request m);
       EvPutBuffer (getBufferFromPool m).1].
Proof.
  intros Henc Hpost. rewrite postJSON_unfold.
  unfold postJSON_body in *.
  destruct (getBufferFromPool_frame m) as [Hl0 Hh0].
  destruct (getBufferFromPool m) as [b m0]. simpl in *.
  unfold rest_of_postJSON, Encoder_Encode, httpClient_Post,
    mbind, M_bind, mret, M_ret in *.
  rewrite Henc in *. simpl in *. rewrite Hh0, Hpost. simpl.
  split; [done|].
  apply events_since_app. rewrite Hl0, <- !app_assoc. done.
Qed.

Lemma postJSON_path_status _url request m bytes resp :
  json_Encode request = inl bytes →
  http.Post (httpClient (client m)) _url json_type (postJSON_body request m)
    = inl resp →
  http.StatusCode resp ≠ http.StatusOK →
  (postJSON _url request m).1
    = (Some (fmt_Errorf_status (http.Status resp)), None) ∧
  events_since m (postJSON _url request m).2
    = [EvGetBuffer (getBufferFromPool m).1; EvEncode;
       EvPost _url json_type (postJSON_body request m);
       EvBodyClose; EvPutBuffer (getBufferFromPool m).1].
Proof.
  intros Henc Hpost Hne. rewrite postJSON_unfold.
  unfold postJSON_body in *.
  destruct (getBufferFromPool_frame m) as [Hl0 Hh0].
  destruct (getBufferFromPool m) as [b m0]. simpl in *.
  unfold rest_of_postJSON, Encoder_Encode, httpClient_Post,
    mbind, M_bind, mret, M_ret in *.
  rewrite Henc in *. simpl in *. rewrite Hh0, Hpost.
  rewrite handle_response_not_ok by done. simpl.
  split; [done|].
  apply events_since_app. rewrite Hl0, <- !app_assoc. done.
Qed.

Lemma postJSON_path_ok _url request m bytes resp :
  json_Encode request = inl bytes →
  http.Post (httpClient (client m)) _url json_type (postJSON_body request m)
    = inl resp →
  http.StatusCode resp = http.StatusOK →
  (postJSON _url request m).1
    = match json_Decode (http.Body resp) with
      | inl v => (None, Some v)
      | inr e => (Some e, None)
      end ∧
  events_since m (postJSON _url request m).2
    = [EvGetBuffer (getBufferFromPool m).1; EvEncode;
       EvPost _url json_type (postJSON_body request m);
       EvDecode; EvBodyClose; EvPutBuffer (getBufferFromPool m).1].
Proof.
  intros Henc Hpost Hok. rewrite postJSON_unfold.
  unfold postJSON_body in *.
  destruct (getBufferFromPool_frame m) as [Hl0 Hh0].
  destruct (getBufferFromPool m) as [b m0]. simpl in *.
  unfold rest_of_postJSON, Encoder_Encode, httpClient_Post,
    mbind, M_bind, mret, M_ret in *.
  rewrite Henc in *. simpl in *. rewrite Hh0, Hpost.
  rewrite handle_response_ok by done. simpl.
  split; [done|].
  apply events_since_app. rewrite Hl0, <- !app_assoc. done.
Qed.

(** *** The ways through [getJSON] *)

Lemma getJSON_path_transport_error _url m e :
  http.Get (httpClient (client m)) _url = inr e →
  (getJSON _url m).1 = (Some e, None) ∧
  events_since m (getJSON _url m).2 = [EvGet _url].
Proof.
  intros Hget. unfold getJSON, httpClient_Get, mbind, M_bind, mret, M_ret.
  simpl. rewrite Hget. simpl. split; [done|]. by apply events_since_app.
Qed.

Lemma getJSON_path_status _url m resp :
  http.Get (httpClient (client m)) _url = inl resp →
  http.StatusCode resp ≠ http.StatusOK →
  (getJSON _url m).1 = (Some (fmt_Errorf_status (http.Status resp)), None) ∧
  events_since m (getJSON _url m).2 = [EvGet _url; EvBodyClose].
Proof.
  intros Hget Hne. unfold getJSON, httpClient_Get, mbind, M_bind. simpl.
  rewrite Hget, handle_response_not_ok by done. simpl.
  split; [done|]. apply events_since_app. by rewrite <- app_assoc.
Qed.

Lemma getJSON_path_ok _url m resp :
  http.Get (httpClient (client m)) _url = inl resp →
  http.StatusCode resp = http.StatusOK →
  (getJSON _url m).1
    = match json_Decode (http.Body resp) with
      | inl v => (None, Some v)
      | inr e => (Some e, None)
      end ∧
  events_since m (getJSON _url m).2 = [EvGet _url; EvDecode; EvBodyClose].
Proof.
  intros Hget Hok. unfold getJSON, httpClient_Get, mbind, M_bind. simpl.
  rewrite Hget, handle_response_ok by done. simpl.
  split; [done|]. apply events_since_app. by rewrite <- app_assoc.
Qed.

(** Go through the four ways out of [postJSON] after the buffer is taken. *)
Ltac post_paths _url request m :=
  let Henc := fresh "Henc" in
  let Hpost := fresh "Hpost" in
  let Hres := fresh "Hres" in
  let Hev := fresh "Hev" in
  destruct (json_Encode request) as [?bytes|?e] eqn:Henc;
  [ destruct (http.Post (httpClient (client m)) _url
                "application/json; charset=utf-8" (postJSON_body request m))
      as [?resp|?e] eqn:Hpost;
    [ match goal with
      | resp : http.Response |- _ =>
          destruct (decide (http.StatusCode resp = http.StatusOK)) as [?Hok|?Hne];
          [ destruct (postJSON_path_ok _url request m _ resp Henc Hpost)
              as [Hres Hev]; [assumption|]
          | destruct (postJSON_path_status _url request m _ resp Henc Hpost)
              as [Hres Hev]; [assumption|] ]
      end
    | destruct (postJSON_path_transport_error _url request m _ _ Henc Hpost)
        as [Hres Hev] ]
  | destruct (postJSON_path_encode_error _url request m _ Henc)
      as [Hres Hev] ];
  rewrite ?Hres, ?Hev.

(** And the three ways out of [getJSON]. *)
Ltac get_paths _url m :=
  let Hget := fresh "Hget" in
  let Hres := fresh "Hres" in
  let Hev := fresh "Hev" in
  destruct (http.Get (httpClient (client m)) _url) as [?resp|?e] eqn:Hget;
  [ match goal with
    | resp : http.Response |- _ =>
        destruct (decide (http.StatusCode resp = http.StatusOK)) as [?Hok|?Hne];
        [ destruct (getJSON_path_ok _url m resp Hget) as [Hres Hev];
          [assumption|]
        | destruct (getJSON_path_status _url m resp Hget) as [Hres Hev];
          [assumption|] ]
    end
  | destruct (getJSON_path_transport_error _url m _ Hget) as [Hres Hev] ];
  rewrite ?Hres, ?Hev.

(** Settle one direction-pair of a characterisation by cases. *)
Ltac by_cases :=
  intros;
  repeat match goal with
         | Hx : _ ∨ _ |- _ => destruct Hx
         | Hx : ∃ _, _ |- _ => destruct Hx
         | Hx : _ ∧ _ |- _ => destruct Hx
         end;
  simplify_eq/=; try done; try congruence; eauto 12.

(** X1. [postJSON] returns a non-nil error exactly when encoding the
    request fails, or the POST fails, or the status of the response is
    not [200], or decoding the body fails; it returns nil exactly when
    a [200] response was decoded, and the value it then stored is the
    decoded one. *)
Theorem postJSON_error_iff _url request m :
  ((postJSON _url request m).1.1 ≠ None ↔
     (∃ e, json_Encode request = inr e) ∨
     (∃ bytes e,
        json_Encode request = inl bytes ∧
        http.Post (httpClient (client m)) _url json_type
          (postJSON_body request m) = inr e) ∨
     (∃ bytes resp,
        json_Encode request = inl bytes ∧
        http.Post (httpClient (client m)) _url json_type
          (postJSON_body request m) = inl resp ∧
        http.StatusCode resp ≠ http.StatusOK) ∨
     (∃ bytes resp e,
        json_Encode request = inl bytes ∧
        http.Post (httpClient (client m)) _url json_type
          (postJSON_body request m) = inl resp ∧
        http.StatusCode resp = http.StatusOK ∧
        json_Decode (http.Body resp) = inr e)) ∧
  ((postJSON _url request m).1.1 = None ↔
     ∃ bytes resp v,
       json_Encode request = inl bytes ∧
       http.Post (httpClient (client m)) _url json_type
         (postJSON_body request m) = inl resp ∧
       http.StatusCode resp = http.StatusOK ∧
       json_Decode (http.Body resp) = inl v ∧
       (postJSON _url request m).1.2 = Some v).
Proof.
  post_paths _url request m.
  - destruct (json_Decode (http.Body resp)) as [v|e] eqn:Hdec; simpl.
    + split; split; by_cases.
    + split; split; by_cases.
  - split; split; by_cases.
  - split; split; by_cases.
  - split; split; by_cases.
Qed.

(** A request in the log of a call of [postJSON] is the one request
    that call sent. *)
Lemma postJSON_post_event _url request m u ct body :
  EvPost u ct body ∈ events_since m (postJSON _url request m).2 →
  u = _url ∧ ct = json_type ∧ body = postJSON_body request m ∧
  ∃ bytes, json_Encode request = inl bytes.
Proof.
  post_paths _url request m;
    intros Hin; rewrite !elem_of_cons, elem_of_nil in Hin; by_cases.
Qed.

Lemma getJSON_no_post_event _url m u ct body :
  EvPost u ct body ∉ events_since m (getJSON _url m).2.
Proof.
  get_paths _url m;
    intros Hin; rewrite !elem_of_cons, elem_of_nil in Hin; by_cases.
Qed.

(** X2. [postJSON] sends one request when the request value can be
    encoded and none when it cannot; the request it sends goes to the
    URL it was given, with the JSON content type, and carries the
    content of the buffer. *)
Theorem postJSON_posts_once_if_encoded _url request m :
  count_events is_post (events_since m (postJSON _url request m).2)
    = match json_Encode request with
      | inl _ => 1%nat
      | inr _ => 0%nat
      end ∧
  ∀ u ct body,
    EvPost u ct body ∈ events_since m (postJSON _url request m).2 →
    u = _url ∧ ct = json_type ∧ body = postJSON_body request m ∧
    ∃ bytes, json_Encode request = inl bytes.
Proof.
  split; [post_paths _url request m; reflexivity|].
  intros u ct body. apply postJSON_post_event.
Qed.

(** X3. The body of a response is decoded exactly when the response
    has status [200]: with any other status, the other 2xx codes
    included, and when no response arrived, neither helper calls the
    decoder, and nothing is stored through [response]. *)
Theorem decode_only_on_200 _url request m :
  (EvDecode ∈ events_since m (postJSON _url request m).2 ↔
     ∃ bytes resp,
       json_Encode request = inl bytes ∧
       http.Post (httpClient (client m)) _url json_type
         (postJSON_body request m) = inl resp ∧
       http.StatusCode resp = http.StatusOK) ∧
  (EvDecode ∈ events_since m (getJSON _url m).2 ↔
     ∃ resp, http.Get (httpClient (client m)) _url = inl resp ∧
             http.StatusCode resp = http.StatusOK) ∧
  (EvDecode ∉ events_since m (postJSON _url request m).2 →
     (postJSON _url request m).1.2 = None) ∧
  (EvDecode ∉ events_since m (getJSON _url m).2 →
     (getJSON _url m).1.2 = None).
Proof.
  split_and!.
  - post_paths _url request m; rewrite !elem_of_cons, elem_of_nil;
      split; by_cases.
  - get_paths _url m; rewrite !elem_of_cons, elem_of_nil;
      split; by_cases.
  - post_paths _url request m; rewrite !elem_of_cons, elem_of_nil;
      intros Hnin; try done.
    exfalso. apply Hnin. auto 10.
  - get_paths _url m; rewrite !elem_of_cons, elem_of_nil;
      intros Hnin; try done.
    exfalso. apply Hnin. auto 10.
Qed.

(** X4. The body of a response is closed exactly once when a response
    arrived and never otherwise. In [postJSON] the close comes right
    before the buffer goes back to the pool, the deferred calls
    running last-in first-out; in [getJSON] it is the last thing that
    happens. *)
Theorem body_closed_once_per_response _url request m :
  (occurrences EvBodyClose (events_since m (postJSON _url request m).2)
     = match json_Encode request,
             http.Post (httpClient (client m)) _url json_type
               (postJSON_body request m) with
       | inl _, inl _ => 1%nat
       | _, _ => 0%nat
       end) ∧
  (occurrences EvBodyClose (events_since m (getJSON _url m).2)
     = match http.Get (httpClient (client m)) _url with
       | inl _ => 1%nat
       | inr _ => 0%nat
       end) ∧
  (EvBodyClose ∈ events_since m (postJSON _url request m).2 →
     ∃ pre, events_since m (postJSON _url request m).2
            = pre ++ [EvBodyClose; EvPutBuffer (getBufferFromPool m).1]) ∧
  (EvBodyClose ∈ events_since m (getJSON _url m).2 →
     last (events_since m (getJSON _url m).2) = Some EvBodyClose).
Proof.
  split_and!.
  - post_paths _url request m; reflexivity.
  - get_paths _url m; reflexivity.
  - post_paths _url request m; rewrite !elem_of_cons, elem_of_nil;
      intros Hin.
    + by eexists [_; _; _; _].
    + by eexists [_; _; _].
    + by_cases.
    + by_cases.
  - get_paths _url m; rewrite !elem_of_cons, elem_of_nil; intros Hin;
      by_cases.
Qed.

(** Encoding into an empty buffer leaves exactly the encoding in it. *)
Lemma postJSON_body_of_empty_buffer request m bytes :
  bufs (getBufferFromPool m).2 !! (getBufferFromPool m).1 = Some "" →
  json_Encode request = inl bytes →
  postJSON_body request m = bytes.
Proof.
  intros Hempty Henc. unfold postJSON_body.
  destruct (getBufferFromPool m) as [b m0]. simpl in *.
  unfold Encoder_Encode. rewrite Henc. simpl.
  by rewrite lookup_alter_eq, Hempty.
Qed.

(** X5. When the buffer the pool hands out is empty, the body
    [postJSON] sends is exactly the encoding of the request value. *)
Theorem postJSON_sends_the_encoding _url request m bytes :
  bufs (getBufferFromPool m).2 !! (getBufferFromPool m).1 = Some "" →
  json_Encode request = inl bytes →
  postJSON_body request m = bytes ∧
  EvPost _url json_type bytes ∈ events_since m (postJSON _url request m).2.
Proof.
  intros Hempty Henc.
  pose proof (postJSON_body_of_empty_buffer _ _ _ Hempty Henc) as Hbody.
  split; [done|].
  post_paths _url request m; simplify_eq; rewrite !elem_of_cons; auto 10.
Qed.

(** *** The pool across calls *)

(** What taking a buffer gives when the pool is in order: an empty
    buffer that is no longer idle, at most one new allocation, and none
    when a buffer was idle. *)
Lemma getBufferFromPool_ok m :
  pool_ok m →
  bufs (getBufferFromPool m).2 !! (getBufferFromPool m).1 = Some "" ∧
  ((getBufferFromPool m).1
     ∉ pool_idle (bufferPool (client (getBufferFromPool m).2))) ∧
  ((getBufferFromPool m).1 < next_buf (getBufferFromPool m).2)%nat ∧
  pool_cap (bufferPool (client (getBufferFromPool m).2))
    = pool_cap (bufferPool (client m)) ∧
  (length (pool_idle (bufferPool (client (getBufferFromPool m).2)))
     < pool_cap (bufferPool (client m)))%nat ∧
  NoDup (pool_idle (bufferPool (client (getBufferFromPool m).2))) ∧
  (∀ b, b ∈ pool_idle (bufferPool (client (getBufferFromPool m).2)) →
        (b < next_buf (getBufferFromPool m).2)%nat ∧
        bufs (getBufferFromPool m).2 !! b = Some "") ∧
  (next_buf m ≤ next_buf (getBufferFromPool m).2 ≤ S (next_buf m))%nat ∧
  (pool_idle (bufferPool (client m)) ≠ [] →
   next_buf (getBufferFromPool m).2 = next_buf m) ∧
  configuration (client (getBufferFromPool m).2) = configuration (client m).
Proof.
  intros [Hcap Hlen Hnd Hal Hem]. unfold getBufferFromPool.
  destruct (pool_idle (bufferPool (client m))) as [|b rest] eqn:Hidle;
    simpl in *.
  - rewrite Hidle. simpl. rewrite lookup_insert_eq.
    split_and!; auto; try lia; try done.
    + apply not_elem_of_nil.
    + intros b Hb. by apply elem_of_nil in Hb.
  - apply NoDup_cons in Hnd as [Hnin Hnd].
    split_and!; auto; try lia.
    + apply Hem. left.
    + apply Hal. left.
    + intros b' Hb'. split; [apply Hal | apply Hem]; by right.
Qed.

(** Between the two pool calls only the buffer taken is written to. *)
Lemma rest_of_postJSON_bufs buf _url request m0 b :
  b ≠ buf →
  bufs (rest_of_postJSON buf _url request m0).2 !! b = bufs m0 !! b.
Proof.
  intros Hne.
  unfold rest_of_postJSON, Encoder_Encode, mbind, M_bind, mret, M_ret.
  destruct (json_Encode request) as [bytes|e]; simpl; [|done].
  match goal with
  | |- context [http.Post ?c ?u ?t ?x] => destruct (http.Post c u t x) as [resp|e]
  end; simpl.
  - match goal with
    | |- context [handle_response resp ?m] =>
        destruct (handle_response_log resp m) as (_ & _ & _ & _ & -> & _)
    end.
    simpl. by rewrite lookup_alter_ne.
  - by rewrite lookup_alter_ne.
Qed.

(** Either helper leaves the pool in order. A call of [postJSON]
    allocates at most one buffer, and none when a buffer was idle; it
    leaves a buffer idle for the next call; [getJSON] allocates
    nothing. *)
Lemma do_call_pool_ok c m :
  pool_ok m →
  pool_ok (do_call c m).2 ∧
  (next_buf m ≤ next_buf (do_call c m).2 ≤ S (next_buf m))%nat ∧
  (pool_idle (bufferPool (client m)) ≠ [] →
   next_buf (do_call c m).2 = next_buf m ∧
   pool_idle (bufferPool (client (do_call c m).2)) ≠ []) ∧
  (∀ u r, c = DoPost u r →
          pool_idle (bufferPool (client (do_call c m).2)) ≠ []) ∧
  (∀ u, c = DoGet u → next_buf (do_call c m).2 = next_buf m).
Proof.
  intros Hok. destruct c as [u r|u]; simpl.
  - destruct (getBufferFromPool_ok m Hok)
      as (Hb & Hnin & Hlt & Hcap & Hlen & Hnd & Hidle & Hnb & Hreuse & _).
    rewrite postJSON_unfold.
    destruct (getBufferFromPool m) as [b m0]. simpl in *.
    destruct (rest_of_postJSON_frame b u r m0) as (_ & _ & _ & Hcl & Hnb1).
    pose proof (rest_of_postJSON_bufs b u r m0) as Hbufs.
    destruct (rest_of_postJSON b u r m0) as [res m1]. simpl in *.
    rewrite Hcl, Hnb1. rewrite Hcap.
    rewrite bool_decide_eq_true_2 by lia. simpl.
    assert (pool_idle (bufferPool (client m0)) ++ [b] ≠ []) as Hne
      by (by destruct (pool_idle (bufferPool (client m0)))).
    split_and!; auto; try lia; try done.
    split; simpl.
    + by destruct Hok.
    + rewrite length_app. simpl. lia.
    + apply NoDup_app. split_and!; auto.
      * intros x Hx Hx'. apply list_elem_of_singleton in Hx'. by subst.
      * apply NoDup_singleton.
    + intros x Hx. apply elem_of_app in Hx as [Hx|Hx].
      * by apply Hidle.
      * apply list_elem_of_singleton in Hx. by subst.
    + intros x Hx. destruct (decide (x = b)) as [->|Hxb].
      * apply lookup_insert_eq.
      * rewrite lookup_insert_ne by done. rewrite Hbufs by done.
        apply elem_of_app in Hx as [Hx|Hx]; [by apply Hidle|].
        apply list_elem_of_singleton in Hx. by subst.
  - destruct (getJSON_frame u m) as (Hcl & Hbufs & Hnb).
    rewrite Hnb, Hcl. split_and!; auto; try lia; try done.
    destruct Hok as [Hcap Hlen Hnd Hal Hem].
    split; rewrite ?Hcl, ?Hnb, ?Hbufs; auto.
Qed.

Lemma getJSON_log_extends _url m :
  ∃ evs, log (getJSON _url m).2 = log m ++ evs.
Proof.
  unfold getJSON, httpClient_Get, mbind, M_bind, mret, M_ret. simpl.
  destruct (http.Get (httpClient (client m)) _url) as [resp|e]; simpl.
  - match goal with
    | |- context [handle_response resp ?m0] =>
        destruct (handle_response_log resp m0) as (evs & -> & _)
    end.
    simpl. rewrite <- app_assoc. eauto.
  - eauto.
Qed.

(** *** Calls one after the other *)

(** A call only adds to the log. *)
Lemma do_call_log c m :
  log (do_call c m).2 = log m ++ events_since m (do_call c m).2.
Proof.
  assert (∃ evs, log (do_call c m).2 = log m ++ evs) as [evs Hevs].
  { destruct c as [u r|u]; simpl.
    - rewrite postJSON_unfold.
      destruct (getBufferFromPool_frame m) as [Hl0 _].
      destruct (getBufferFromPool m) as [b m0]. simpl in *.
      destruct (rest_of_postJSON_frame b u r m0) as (mid & Hlog & _).
      destruct (rest_of_postJSON b u r m0) as [res m1]. simpl in *.
      rewrite Hlog, Hl0, <- !app_assoc. eauto.
    - destruct (getJSON_log_extends u m) as [evs Hevs]. eauto. }
  by rewrite (events_since_app _ _ _ Hevs).
Qed.

Lemma do_calls_log cs m :
  log (do_calls cs m) = log m ++ events_since m (do_calls cs m).
Proof.
  assert (∃ evs, log (do_calls cs m) = log m ++ evs) as [evs Hevs].
  { revert m. induction cs as [|c cs IH]; intros m; simpl.
    - exists []. by rewrite app_nil_r.
    - destruct (IH (do_call c m).2) as [evs Hevs].
      rewrite Hevs, do_call_log, <- app_assoc. eauto. }
  by rewrite (events_since_app _ _ _ Hevs).
Qed.

(** The events of a sequence are those of its first call followed by
    those of the rest. *)
Lemma events_since_cons c cs m :
  events_since m (do_calls (c :: cs) m)
  = events_since m (do_call c m).2
    ++ events_since (do_call c m).2 (do_calls cs (do_call c m).2).
Proof.
  simpl. apply events_since_app.
  by rewrite do_calls_log, do_call_log at 1; rewrite <- app_assoc.
Qed.

(** With a buffer idle, a sequence of calls allocates nothing. *)
Lemma do_calls_reuse cs m :
  pool_ok m → pool_idle (bufferPool (client m)) ≠ [] →
  next_buf (do_calls cs m) = next_buf m.
Proof.
  revert m. induction cs as [|c cs IH]; intros m Hok Hne; simpl; [done|].
  destruct (do_call_pool_ok c m Hok) as (Hok1 & _ & Hre & _).
  destruct (Hre Hne) as [Hnb Hne1].
  rewrite IH by done. done.
Qed.

(** A sequence of calls keeps the pool in order and allocates at most
    one buffer. *)
Lemma do_calls_pool_ok cs m :
  pool_ok m →
  pool_ok (do_calls cs m) ∧
  (next_buf m ≤ next_buf (do_calls cs m) ≤ S (next_buf m))%nat.
Proof.
  revert m. induction cs as [|c cs IH]; intros m Hok; simpl.
  - split; [done | lia].
  - destruct (do_call_pool_ok c m Hok) as (Hok1 & Hnb1 & _ & Hpost1 & Hget1).
    destruct (IH _ Hok1) as (Hok2 & Hnb2).
    split; [done|]. destruct c as [u r|u].
    + rewrite (do_calls_reuse cs _ Hok1 (Hpost1 _ _ eq_refl)). lia.
    + specialize (Hget1 _ eq_refl). simpl in *. lia.
Qed.

(** X7. Calls of the helpers made one after the other on a client whose
    pool is in order keep it in order: the idle buffers stay within
    the capacity, distinct, allocated and empty. The whole sequence
    allocates at most one buffer, and none if a buffer was idle at the
    start. Every request sent in the sequence has the JSON content
    type and carries exactly the encoding of the request value of one
    of the calls to that URL. *)
Theorem calls_in_sequence cs m :
  pool_ok m →
  pool_ok (do_calls cs m) ∧
  (next_buf m ≤ next_buf (do_calls cs m) ≤ S (next_buf m))%nat ∧
  (pool_idle (bufferPool (client m)) ≠ [] →
   next_buf (do_calls cs m) = next_buf m) ∧
  ∀ u ct body,
    EvPost u ct body ∈ events_since m (do_calls cs m) →
    ct = json_type ∧
    ∃ request, DoPost u request ∈ cs ∧ json_Encode request = inl body.
Proof.
  intros Hok. destruct (do_calls_pool_ok cs m Hok) as [Hok1 Hnb].
  split; [done|]. split; [done|].
  split; [intros Hne; by apply do_calls_reuse|].
  clear Hok1 Hnb. revert m Hok.
  induction cs as [|c cs IH]; intros m Hok u ct body.
  - unfold events_since. simpl. rewrite drop_all.
    intros Hin. by apply elem_of_nil in Hin.
  - destruct (do_call_pool_ok c m Hok) as (Hok1 & _).
    rewrite events_since_cons, elem_of_app. intros [Hin|Hin].
    + destruct c as [u1 r1|u1]; simpl in Hin.
      * destruct (postJSON_post_event _ _ _ _ _ _ Hin)
          as (-> & -> & -> & bytes & Henc).
        split; [done|]. exists r1. split; [by left|].
        destruct (getBufferFromPool_ok m Hok) as (Hempty & _).
        by rewrite (postJSON_body_of_empty_buffer _ _ _ Hempty Henc).
      * by apply getJSON_no_post_event in Hin.
    + destruct (IH _ Hok1 _ _ _ Hin) as (-> & r & Hr & Henc).
      split; [done|]. exists r. split; [by right | done].
Qed.

(** The buffers a call takes and returns are allocated. *)
Lemma do_call_buffers_allocated c m b :
  pool_ok m →
  EvGetBuffer b ∈ events_since m (do_call c m).2 ∨
  EvPutBuffer b ∈ events_since m (do_call c m).2 →
  (b < next_buf (do_call c m).2)%nat.
Proof.
  intros Hok Hin.
  destruct (getBufferFromPool_ok m Hok) as (_ & _ & Hlt & _ & _ & _ & _ & Hnb & _).
  destruct (do_call_pool_ok c m Hok) as (_ & Hnb1 & _ & _ & Hget1).
  destruct c as [u r|u]; simpl in *.
  - assert (b = (getBufferFromPool m).1) as ->.
    { revert Hin. post_paths u r m; rewrite !elem_of_cons, !elem_of_nil;
        by_cases. }
    assert (next_buf (postJSON u r m).2 = next_buf (getBufferFromPool m).2)
      as ->; [|done].
    rewrite postJSON_unfold.
    destruct (getBufferFromPool m) as [b0 m0]. simpl.
    destruct (rest_of_postJSON_frame b0 u r m0) as (_ & _ & _ & _ & Hnb0).
    by destruct (rest_of_postJSON b0 u r m0) as [res m1].
  - revert Hin. get_paths u m; rewrite !elem_of_cons, !elem_of_nil; by_cases.
Qed.

Lemma do_calls_buffers_allocated cs m b :
  pool_ok m →
  EvGetBuffer b ∈ events_since m (do_calls cs m) ∨
  EvPutBuffer b ∈ events_since m (do_calls cs m) →
  (b < next_buf (do_calls cs m))%nat.
Proof.
  revert m. induction cs as [|c cs IH]; intros m Hok.
  - unfold events_since. simpl. rewrite drop_all, !elem_of_nil. tauto.
  - destruct (do_call_pool_ok c m Hok) as (Hok1 & _).
    destruct (do_calls_pool_ok cs _ Hok1) as (_ & Hnb).
    rewrite events_since_cons, !elem_of_app. intros Hin.
    assert ((EvGetBuffer b ∈ events_since m (do_call c m).2 ∨
             EvPutBuffer b ∈ events_since m (do_call c m).2) ∨
            (EvGetBuffer b ∈ events_since (do_call c m).2
                                (do_calls cs (do_call c m).2) ∨
             EvPutBuffer b ∈ events_since (do_call c m).2
                                (do_calls cs (do_call c m).2)))
      as [Hc|Hcs] by tauto.
    + pose proof (do_call_buffers_allocated c m b Hok Hc). simpl. lia.
    + by apply IH.
Qed.

Lemma do_calls_configuration cs m :
  configuration (client (do_calls cs m)) = configuration (client m).
Proof.
  revert m. induction cs as [|c cs IH]; intros m; simpl; [done|].
  rewrite IH. destruct c as [u r|u]; simpl.
  - apply postJSON_configuration.
  - by destruct (getJSON_frame u m) as [-> _].
Qed.

(** X8. On a client fresh from [NewClient], whatever calls of the
    helpers are made one after the other, one buffer at most is ever
    allocated: every buffer taken from or returned to the pool is
    buffer [0]. The calls leave what the constructor fixed as it was:
    the credentials, the transport chosen, the capacity [16]. *)
Theorem fresh_client_uses_one_buffer a b h cs :
  (next_buf (do_calls cs (fresh_mem (cl (NewClient a b h).2))) ≤ 1)%nat ∧
  (∀ b0,
     EvGetBuffer b0 ∈ log (do_calls cs (fresh_mem (cl (NewClient a b h).2))) ∨
     EvPutBuffer b0 ∈ log (do_calls cs (fresh_mem (cl (NewClient a b h).2))) →
     b0 = 0%nat) ∧
  configuration (client (do_calls cs (fresh_mem (cl (NewClient a b h).2))))
    = (a, b, default http_DefaultClient h, 16%nat, mkChan 0 []).
Proof.
  assert (pool_ok (fresh_mem (cl (NewClient a b h).2))) as Hok.
  { split; simpl; try lia.
    - apply NoDup_nil_2.
    - intros b0 Hb0. by apply elem_of_nil in Hb0.
    - intros b0 Hb0. by apply elem_of_nil in Hb0. }
  destruct (do_calls_pool_ok cs _ Hok) as [_ Hnb].
  change (next_buf (fresh_mem (cl (NewClient a b h).2))) with 0%nat in Hnb.
  split_and!.
  - lia.
  - intros b0 Hin.
    pose proof (do_calls_buffers_allocated cs _ b0 Hok Hin) as Hlt. lia.
  - rewrite do_calls_configuration. by destruct h.
Qed.

(** *** The helpers and the token *)

Lemma ignores_token_ret {A} (a : A) : ignores_token (mret a).
Proof. done. Qed.

Lemma ignores_token_bind {A B} (f : M A) (g : A → M B) :
  ignores_token f → (∀ a, ignores_token (g a)) → ignores_token (f ≫= g).
Proof.
  intros Hf Hg t m. unfold mbind, M_bind. rewrite Hf.
  destruct (f m) as [a m1]. simpl. apply Hg.
Qed.

Lemma ignores_token_defer {A} (c : M unit) (f : M A) :
  ignores_token c → ignores_token f → ignores_token (defer c f).
Proof.
  intros Hc Hf t m. unfold defer. rewrite Hf.
  destruct (f m) as [a m1]. simpl. rewrite Hc.
  by destruct (c m1) as [[] m2].
Qed.

Lemma ignores_token_emit e : ignores_token (emit e).
Proof. done. Qed.

Lemma ignores_token_get : ignores_token getBufferFromPool.
Proof.
  intros t m. unfold getBufferFromPool. simpl.
  by destruct (pool_idle (bufferPool (client m))).
Qed.

Lemma ignores_token_put b : ignores_token (putBufferToPool b).
Proof. done. Qed.

Lemma ignores_token_encode b v : ignores_token (Encoder_Encode b v).
Proof.
  intros t m. unfold Encoder_Encode. by destruct (json_Encode v).
Qed.

Lemma ignores_token_post u ct b : ignores_token (httpClient_Post u ct b).
Proof. done. Qed.

Lemma ignores_token_http_get u : ignores_token (httpClient_Get u).
Proof. done. Qed.

Lemma ignores_token_handle resp : ignores_token (handle_response resp).
Proof.
  unfold handle_response. apply ignores_token_defer.
  - apply ignores_token_emit.
  - case_bool_decide; [apply ignores_token_ret|].
    apply ignores_token_bind.
    + unfold Decoder_Decode. apply ignores_token_bind.
      * apply ignores_token_emit.
      * intros _. apply ignores_token_ret.
    + intros [v|e]; apply ignores_token_ret.
Qed.

Lemma ignores_token_call c : ignores_token (do_call c).
Proof.
  destruct c as [u r|u]; simpl.
  - unfold postJSON. apply ignores_token_bind; [apply ignores_token_get|].
    intros b. apply ignores_token_defer; [apply ignores_token_put|].
    unfold rest_of_postJSON.
    apply ignores_token_bind; [apply ignores_token_encode|].
    intros [e|]; [apply ignores_token_ret|].
    apply ignores_token_bind; [apply ignores_token_post|].
    intros [resp|e]; [apply ignores_token_handle | apply ignores_token_ret].
  - unfold getJSON. apply ignores_token_bind; [apply ignores_token_http_get|].
    intros [resp|e]; [apply ignores_token_handle | apply ignores_token_ret].
Qed.

(** X9. The request helpers neither read nor write the token state of
    the client: whatever [currentToken] holds, a call returns the same
    error and value, logs the same events and treats the pool and the
    buffers the same way, and it leaves [currentToken] as it found it.
    The same holds of calls made one after the other. *)
Theorem helpers_ignore_token t c cs m :
  (do_call c (with_token t m)).1 = (do_call c m).1 ∧
  (do_call c (with_token t m)).2 = with_token t (do_call c m).2 ∧
  do_calls cs (with_token t m) = with_token t (do_calls cs m) ∧
  currentToken (client (do_calls cs m)) = currentToken (client m).
Proof.
  assert (∀ m0, do_calls cs (with_token t m0) = with_token t (do_calls cs m0))
    as Hseq.
  { induction cs as [|c0 cs IH]; intros m0; simpl; [done|].
    rewrite (ignores_token_call c0 t m0). simpl. apply IH. }
  rewrite (ignores_token_call c t m).
  split; [done|]. split; [done|]. split; [apply Hseq|]. clear Hseq.
  revert m. induction cs as [|c0 cs IH]; intros m; simpl; [done|].
  rewrite IH. destruct c0 as [u r|u]; simpl.
  - rewrite postJSON_unfold.
    destruct (getBufferFromPool m) as [b m0] eqn:Hget.
    destruct (rest_of_postJSON_frame b u r m0) as (_ & _ & _ & Hcl & _).
    destruct (rest_of_postJSON b u r m0) as [res m1]. simpl in *.
    rewrite Hcl. unfold getBufferFromPool in Hget.
    destruct (pool_idle (bufferPool (client m))); by simplify_eq/=.
  - by destruct (getJSON_frame u m) as [-> _].
Qed.

(** X10. A call of [postJSON] loses no buffer and duplicates none:
    when buffers were idle, the buffers idle after the call are the
    same ones as before, whatever their order; when none was idle, the
    one buffer idle afterwards is the buffer the call took. *)
Theorem postJSON_conserves_buffers _url request m :
  (0 < pool_cap (bufferPool (client m)))%nat →
  (length (pool_idle (bufferPool (client m)))
     ≤ pool_cap (bufferPool (client m)))%nat →
  (pool_idle (bufferPool (client m)) ≠ [] →
   pool_idle (bufferPool (client (postJSON _url request m).2))
     ≡ₚ pool_idle (bufferPool (client m))) ∧
  (pool_idle (bufferPool (client m)) = [] →
   pool_idle (bufferPool (client (postJSON _url request m).2))
     = [(getBufferFromPool m).1]).
Proof.
  intros Hcap Hlen.
  assert (pool_idle (bufferPool (client (postJSON _url request m).2))
          = match pool_idle (bufferPool (client m)) with
            | [] => [(getBufferFromPool m).1]
            | b :: rest => rest ++ [b]
            end) as Heq.
  { rewrite postJSON_unfold. unfold getBufferFromPool.
    destruct (pool_idle (bufferPool (client m))) as [|b rest] eqn:Hidle.
    - match goal with
      | |- context [rest_of_postJSON ?b ?u ?r ?m0] =>
          destruct (rest_of_postJSON_frame b u r m0) as (_ & _ & _ & Hcl & _);
          destruct (rest_of_postJSON b u r m0) as [res m1]
      end.
      simpl in *. rewrite Hcl, Hidle. simpl.
      by rewrite bool_decide_eq_true_2 by lia.
    - match goal with
      | |- context [rest_of_postJSON ?b ?u ?r ?m0] =>
          destruct (rest_of_postJSON_frame b u r m0) as (_ & _ & _ & Hcl & _);
          destruct (rest_of_postJSON b u r m0) as [res m1]
      end.
      simpl in *. rewrite Hcl. simpl.
      by rewrite bool_decide_eq_true_2 by lia. }
  rewrite Heq.
  destruct (pool_idle (bufferPool (client m))) as [|b rest]; split; try done.
  intros _. by rewrite Permutation_app_comm.
Qed.

End HelperPaths.

(** ** Sequences of calls at work *)

(** Three calls on a fresh client: the second [postJSON] takes the
    buffer the first one returned. *)
Example three_calls :
  let m := do_calls (H := demo) demo_calls (fresh_mem demo_client) in
  log m = [EvGetBuffer 0; EvEncode;
           EvPost "/ok" "application/json; charset=utf-8" "{}";
           EvDecode; EvBodyClose; EvPutBuffer 0;
           EvGet "/created"; EvBodyClose;
           EvGetBuffer 0; EvEncode;
           EvPost "/down" "application/json; charset=utf-8" "[]";
           EvPutBuffer 0] ∧
  next_buf m = 1%nat ∧
  pool_idle (bufferPool (client m)) = [0%nat].
Proof. vm_compute. done. Qed.

Lemma demo_pool_ok : pool_ok (fresh_mem demo_client).
Proof.
  split; simpl.
  - lia.
  - lia.
  - apply NoDup_nil_2.
  - intros b Hb. apply elem_of_nil in Hb. destruct Hb.
  - intros b Hb. apply elem_of_nil in Hb. destruct Hb.
Defined.

Lemma postJSON_sends_the_encoding_witness :
  bufs (getBufferFromPool (fresh_mem demo_client)).2
    !! (getBufferFromPool (fresh_mem demo_client)).1 = Some "" ∧
  json_Encode (Collaborators := demo) "{}" = inl "{}" ∧
  postJSON_body (H := demo) "{}" (fresh_mem demo_client) = "{}".
Proof.
  assert (bufs (getBufferFromPool (fresh_mem demo_client)).2
            !! (getBufferFromPool (fresh_mem demo_client)).1 = Some "")
    as Hempty by (vm_compute; reflexivity).
  split; [exact Hempty|]. split; [reflexivity|].
  exact (proj1 (postJSON_sends_the_encoding (H := demo) "/ok" "{}"
                  (fresh_mem demo_client) "{}" Hempty eq_refl)).
Defined.

Lemma calls_in_sequence_witness :
  pool_ok (fresh_mem demo_client) ∧
  pool_ok (do_calls (H := demo) demo_calls (fresh_mem demo_client)) ∧
  (next_buf (do_calls (H := demo) demo_calls (fresh_mem demo_client)) ≤ 1)%nat.
Proof.
  split; [exact demo_pool_ok|].
  destruct (calls_in_sequence (H := demo) demo_calls
              (fresh_mem demo_client) demo_pool_ok) as (Hok & Hnb & _).
  split; [exact Hok | exact (proj2 Hnb)].
Defined.

Lemma postJSON_conserves_buffers_witness :
  (0 < pool_cap (bufferPool (client demo_two_idle)))%nat ∧
  (length (pool_idle (bufferPool (client demo_two_idle)))
     ≤ pool_cap (bufferPool (client demo_two_idle)))%nat ∧
  pool_idle (bufferPool (client demo_two_idle)) = [0%nat; 1%nat] ∧
  pool_idle (bufferPool
     (client (postJSON (H := demo) "/down" "{}" demo_two_idle).2))
    ≡ₚ [0%nat; 1%nat].
Proof.
  assert (0 < pool_cap (bufferPool (client demo_two_idle)))%nat
    as Hcap by (vm_compute; lia).
  assert (length (pool_idle (bufferPool (client demo_two_idle)))
            ≤ pool_cap (bufferPool (client demo_two_idle)))%nat
    as Hlen by (vm_compute; lia).
  split; [exact Hcap|]. split; [exact Hlen|]. split; [reflexivity|].
  apply (proj1 (postJSON_conserves_buffers (H := demo) "/down" "{}"
                  demo_two_idle Hcap Hlen)).
  discriminate.
Defined.
